(** * Binary expression trees: infix and postfix conversion

    A shallow embedding of [binary_expression_tree.py]: the tokenizer
    [get_symbols], the [Node] and [BinaryExpressionTree] classes, the two
    builders [from_postfix] and [from_infix], and the two traversals
    [get_postfix] and [get_infix], followed by the properties proved about
    them.

    Modelling choices.
    - A Python [str] is a list of characters, [str := list ascii]; the texts
      covered are therefore those whose code points are below 256.
    - Python integers that may be negative ([brackets_level],
      [lowest_operator], ...) are [Z]; character offsets are [nat].
    - An uncaught Python exception is a value [Raise e] of [result].
    - The interpreter's recursion limit is a parameter [depth] of the
      recursive builder; [from_infix] runs it with a limit that is never
      reached ([from_infix_no_recursion_error]). *)

From Stdlib Require Import List String Ascii ZArith Lia Bool Arith Sorted.
Import ListNotations.

Local Open Scope char_scope.
Local Open Scope list_scope.

(** ** Strings *)

Definition str := list ascii.

(** String literals of the source are written [lit "..."]. *)
Definition lit (s : string) : str := list_ascii_of_string s.

Fixpoint str_eqb (a b : str) : bool :=
  match a, b with
  | [], [] => true
  | x :: a', y :: b' => Ascii.eqb x y && str_eqb a' b'
  | _, _ => false
  end.

(** Truth value of a string: [if symbol:]. *)
Definition nonempty (s : str) : bool :=
  match s with [] => false | _ :: _ => true end.

Fixpoint startswith (s prefix : str) : bool :=
  match prefix, s with
  | [], _ => true
  | p :: prefix', c :: s' => Ascii.eqb c p && startswith s' prefix'
  | _ :: _, [] => false
  end.

(** [needle in haystack] on two strings: substring containment. *)
Fixpoint str_in (needle haystack : str) : bool :=
  startswith haystack needle
  || match haystack with
     | [] => false
     | _ :: rest => str_in needle rest
     end.

(** [x in l] on a list of strings. *)
Definition list_contains (l : list str) (x : str) : bool :=
  existsb (str_eqb x) l.

(** [l.index(x)]: the first position of [x]; [None] stands for the
    [ValueError] raised when [x] is absent. *)
Fixpoint list_index (l : list str) (x : str) : option nat :=
  match l with
  | [] => None
  | y :: l' => if str_eqb y x then Some 0%nat
               else option_map S (list_index l' x)
  end.

(** [str.isnumeric] on the characters below U+0100: the ten decimal digits,
    the superscripts two, three and one, and the three vulgar fractions. *)
Definition isnumeric (c : ascii) : bool :=
  let n := nat_of_ascii c in
  ((48 <=? n) && (n <=? 57)
   || (n =? 178) || (n =? 179) || (n =? 185)
   || (188 <=? n) && (n <=? 190))%nat.

(** [str.isspace] on the characters below U+0100. *)
Definition isspace (c : ascii) : bool :=
  let n := nat_of_ascii c in
  ((9 <=? n) && (n <=? 13) || (28 <=? n) && (n <=? 32)
   || (n =? 133) || (n =? 160))%nat.

(** ** Exceptions *)

Inductive exn : Type :=
| IndexError      (* pop from empty list, list index out of range *)
| TypeError       (* None + 1 *)
| RecursionError. (* maximum recursion depth exceeded *)

Inductive result (A : Type) : Type :=
| Ok (a : A)
| Raise (e : exn).

Arguments Ok {A} a.
Arguments Raise {A} e.

Definition bind {A B : Type} (m : result A) (k : A -> result B) : result B :=
  match m with
  | Ok a => k a
  | Raise e => Raise e
  end.

Notation "x <- m ;; k" := (bind m (fun x => k))
  (at level 61, m at next level, right associativity).

(** ** The tokenizer *)

(** What the generator yields: the symbol alone, or the pair of the symbol
    and the index of its first character. *)
Definition item (indices : bool) : Type :=
  if indices then (str * nat)%type else str.

Definition yield (indices : bool) (symbol : str) (index : nat) : item indices :=
  match indices with
  | true => (symbol, index)
  | false => symbol
  end.

(** The pending number is yielded when it is not empty. *)
Definition flush (indices : bool) (symbol : str) (symbol_index : nat)
  : list (item indices) :=
  if nonempty symbol then [yield indices symbol symbol_index] else [].

(** The body of the [for i, char in enumerate(text)] loop and the final
    yield, with the loop variables [i], [symbol] and [symbol_index] as
    arguments; the result is the sequence of yielded items. *)
Fixpoint get_symbols_loop (indices : bool) (i : nat) (symbol : str)
    (symbol_index : nat) (text : str) : list (item indices) :=
  match text with
  | [] => flush indices symbol symbol_index
  | char :: rest =>
      if isnumeric char then
        get_symbols_loop indices (S i) (symbol ++ [char]) symbol_index rest
      else
        flush indices symbol symbol_index
        ++ (if negb (Ascii.eqb char " ") then [yield indices [char] i] else [])
        ++ get_symbols_loop indices (S i) [] (S i) rest
  end.

Definition get_symbols (text : str) (indices : bool) : list (item indices) :=
  get_symbols_loop indices 0 [] 0 text.

(** ** Nodes and trees *)

#[local] Unset Elimination Schemes.
Inductive Node : Type :=
| mkNode (data : str) (left right : option Node).

#[local] Set Elimination Schemes.

Definition data (n : Node) : str := let 'mkNode d _ _ := n in d.
Definition left (n : Node) : option Node := let 'mkNode _ l _ := n in l.
Definition right (n : Node) : option Node := let 'mkNode _ _ r := n in r.

Record BinaryExpressionTree : Type := mkTree { root : Node }.

(** [self.root], under a name that the parameter [root] of the traversals
    does not hide. *)
Definition tree_root (self : BinaryExpressionTree) : Node := root self.

Definition OPERATORS : list str := [["/"]; ["*"]; ["+"]; ["-"]].

(** ** The postfix builder *)

(** The stack is a list whose head is the top (the last element of the
    Python list). *)
Definition pop (stack : list Node) : result (Node * list Node) :=
  match stack with
  | [] => Raise IndexError
  | top :: rest => Ok (top, rest)
  end.

Definition postfix_step (stack : list Node) (symbol : str)
  : result (list Node) :=
  if list_contains OPERATORS symbol then
    p1 <- pop stack ;;
    p2 <- pop (snd p1) ;;
    Ok (mkNode symbol (Some (fst p2)) (Some (fst p1)) :: snd p2)
  else
    Ok (mkNode symbol None None :: stack).

(** The [for symbol in get_symbols(text)] loop of [from_postfix]. *)
Fixpoint postfix_loop (symbols : list str) (stack : list Node)
  : result (list Node) :=
  match symbols with
  | [] => Ok stack
  | symbol :: rest =>
      stack' <- postfix_step stack symbol ;;
      postfix_loop rest stack'
  end.

Definition from_postfix (text : str) : result BinaryExpressionTree :=
  stack <- postfix_loop (get_symbols text false) [] ;;
  p <- pop stack ;;
  Ok (mkTree (fst p)).

(** ** The infix builder *)

(** The four variables of the search for the lowest operator. *)
Record scan : Type := mkScan {
  lowest_operator : Z;
  lowest_operator_index : option nat;
  brackets_level : Z;
  lowest_operator_brackets_level : Z
}.

Definition scan_init : scan := mkScan (-1) None 0 (-1).

Definition scan_step (st : scan) (it : str * nat) : scan :=
  let '(symbol, i) := it in
  if str_eqb symbol ["("] then
    mkScan (lowest_operator st) (lowest_operator_index st)
           (brackets_level st + 1) (lowest_operator_brackets_level st)
  else if str_eqb symbol [")"] then
    mkScan (lowest_operator st) (lowest_operator_index st)
           (brackets_level st - 1) (lowest_operator_brackets_level st)
  else if (lowest_operator_brackets_level st =? -1)%Z
          || (brackets_level st <=? lowest_operator_brackets_level st)%Z then
    if list_contains OPERATORS symbol then
      match list_index OPERATORS symbol with
      | Some k =>
          if (brackets_level st <? lowest_operator_brackets_level st)%Z
             || (lowest_operator st <=? Z.of_nat k)%Z then
            mkScan (Z.of_nat k) (Some i) (brackets_level st) (brackets_level st)
          else st
      | None => st
      end
    else st
  else st.

(** The first loop of [from_infix]. *)
Definition scan_text (text : str) : scan :=
  fold_left scan_step (get_symbols text true) scan_init.

(** [l[k]] with Python's negative indices. *)
Definition list_getitem (l : list str) (k : Z) : result str :=
  let n := Z.of_nat (List.length l) in
  let k' := if (k <? 0)%Z then (k + n)%Z else k in
  if (k' <? 0)%Z || (n <=? k')%Z then Raise IndexError
  else match nth_error l (Z.to_nat k') with
       | Some x => Ok x
       | None => Raise IndexError
       end.

(** The body of [from_infix] after the search, with the function called
    recursively as the parameter [from_infix]. *)
Definition from_infix_body
    (from_infix : str -> result BinaryExpressionTree) (text : str)
  : result BinaryExpressionTree :=
  let st := scan_text text in
  match lowest_operator_index st with
  | None =>
      match find (fun symbol => negb (str_in symbol (lit "()")))
                 (get_symbols text false) with
      | Some symbol => Ok (mkTree (mkNode symbol None None))
      | None => Raise TypeError
      end
  | Some i =>
      let left := firstn i text in
      let right := skipn (i + 1) text in
      l <- from_infix left ;;
      r <- from_infix right ;;
      op <- list_getitem OPERATORS (lowest_operator st) ;;
      Ok (mkTree (mkNode op (Some (root l)) (Some (root r))))
  end.

(** [depth] bounds the number of nested calls. *)
Fixpoint from_infix_rec (depth : nat) (text : str)
  : result BinaryExpressionTree :=
  match depth with
  | O => Raise RecursionError
  | S depth' => from_infix_body (from_infix_rec depth') text
  end.

Definition from_infix (text : str) : result BinaryExpressionTree :=
  from_infix_rec (S (List.length text)) text.

(** ** The traversals *)

Fixpoint get_postfix_from (root : Node) : str :=
  let 'mkNode data left right := root in
  let result := [] in
  let result :=
    match left with
    | Some l => result ++ (get_postfix_from l ++ [" "])
    | None => result
    end in
  let result :=
    match right with
    | Some r => result ++ (get_postfix_from r ++ [" "])
    | None => result
    end in
  result ++ data.

Definition get_postfix (self : BinaryExpressionTree) (root : option Node)
  : str :=
  get_postfix_from (match root with None => tree_root self | Some r => r end).

Fixpoint get_infix_from (root : Node) : str :=
  let 'mkNode data left right := root in
  let result := [] in
  let result :=
    match left with
    | Some l => result ++ (get_infix_from l ++ [" "])
    | None => result
    end in
  let result := result ++ data in
  let result :=
    match right with
    | Some r => result ++ ([" "] ++ get_infix_from r)
    | None => result
    end in
  match left, right with
  | None, None => result
  | _, _ => ["("] ++ result ++ [")"]
  end.

Definition get_infix (self : BinaryExpressionTree) (root : option Node)
  : str :=
  get_infix_from (match root with None => tree_root self | Some r => r end).

(** * Vocabulary of the properties *)

(** A symbol is a non-empty run of numeric characters, or one character
    that is neither numeric nor the space. *)
Definition is_symbol (s : str) : Prop :=
  (s <> [] /\ forallb isnumeric s = true)
  \/ (exists c, s = [c] /\ isnumeric c = false /\ c <> " ").

Definition not_operator (s : str) : Prop :=
  list_contains OPERATORS s = false.

(** An operand, for the two builders: a symbol of the tokenizer that is
    not one of the four operators. *)
Definition is_operand (s : str) : Prop :=
  is_symbol s /\ not_operator s.

(** A text that does not begin with a numeric character: read after a
    pending number, it ends that number. *)
Definition starts_clean (text : str) : Prop :=
  match text with
  | [] => True
  | c :: _ => isnumeric c = false
  end.

(** What is known of a recorded operator: its rank in [OPERATORS] and the
    item it was read from. *)
Definition scan_found (items : list (str * nat)) (st : scan) : Prop :=
  forall i, lowest_operator_index st = Some i ->
    exists k op, lowest_operator st = Z.of_nat k
                 /\ list_index OPERATORS op = Some k
                 /\ list_contains OPERATORS op = true
                 /\ In (op, i) items.

(** A leaf has no child and its data is an operand. *)
Definition is_leaf (n : Node) : Prop :=
  left n = None /\ right n = None /\ is_operand (data n).

(** An internal node has both children and its data is an operator. *)
Definition is_internal (n : Node) : Prop :=
  (exists l, left n = Some l) /\ (exists r, right n = Some r)
  /\ list_contains OPERATORS (data n) = true.

(** The nodes reachable from a root through [left] and [right]. *)
Inductive reachable (root : Node) : Node -> Prop :=
| reach_root : reachable root root
| reach_left n m : reachable root n -> left n = Some m -> reachable root m
| reach_right n m : reachable root n -> right n = Some m -> reachable root m.

(** Trees whose internal nodes carry an operator and two subtrees, and
    whose leaves carry a string accepted by [leaf_ok]. *)
Inductive tree_of (leaf_ok : str -> Prop) : Node -> Prop :=
| tree_leaf s :
    leaf_ok s -> tree_of leaf_ok (mkNode s None None)
| tree_node op l r :
    list_contains OPERATORS op = true ->
    tree_of leaf_ok l -> tree_of leaf_ok r ->
    tree_of leaf_ok (mkNode op (Some l) (Some r)).


(** The leaves made by [from_infix]: a symbol of the tokenizer that is
    neither a parenthesis nor an operator. *)
Definition operand (s : str) : Prop :=
  is_symbol s /\ str_in s (lit "()") = false /\ not_operator s.

(** The search continued from offset [i] of the text, with no number
    pending. *)
Definition scan_from (i : nat) (st : scan) (text : str) : scan :=
  fold_left scan_step (get_symbols_loop true i [] i text) st.

(** The state of the search after the rendering of [n], read at offset [i]
    from a state in which no operator is recorded. *)
Definition selected (n : Node) (i : nat) (st : scan) : scan :=
  match n with
  | mkNode op (Some l) (Some r) =>
      match list_index OPERATORS op with
      | Some k =>
          mkScan (Z.of_nat k)
                 (Some (i + 1 + List.length (get_infix_from l) + 1)%nat)
                 (brackets_level st) (brackets_level st + 1)
      | None => st
      end
  | _ => st
  end.

(** What surrounds the rendering of a subtree in the two halves of a
    split: opening parentheses and spaces before it, closing parentheses
    and spaces after it. *)
Definition opening (pre : str) : Prop :=
  Forall (fun c => c = "(" \/ c = " ") pre.

(** See [opening]. *)
Definition closing (suf : str) : Prop :=
  Forall (fun c => c = ")" \/ c = " ") suf.

(** A character that can belong to an operand of an operator-free text. *)
Definition operand_char (c : ascii) : bool :=
  negb (Ascii.eqb c " ") && negb (Ascii.eqb c "(") && negb (Ascii.eqb c ")").

(** [operands_between seen text]: every stretch of [text] between two
    operators, before the first and after the last, holds a character of an
    operand; [seen] tells whether the current stretch already does. *)
Fixpoint operands_between (seen : bool) (text : str) : bool :=
  match text with
  | [] => seen
  | c :: rest =>
      if list_contains OPERATORS [c] then seen && operands_between false rest
      else operands_between (seen || operand_char c) rest
  end.

(** The decimal digits [0] to [9]. *)
Definition is_digit (c : ascii) : bool :=
  let n := nat_of_ascii c in ((48 <=? n) && (n <=? 57))%nat.

(** The valid infix expressions of the specification: numbers written in
    decimal digits, combined by the four binary operators, grouped by
    balanced parentheses, with spaces around any subexpression. *)
Inductive valid_infix : str -> Prop :=
| valid_number ds :
    ds <> [] -> forallb is_digit ds = true -> valid_infix ds
| valid_binary a op b :
    valid_infix a -> list_contains OPERATORS [op] = true -> valid_infix b ->
    valid_infix (a ++ op :: b)
| valid_parens e :
    valid_infix e -> valid_infix ("(" :: e ++ [")"])
| valid_space_before e :
    valid_infix e -> valid_infix (" " :: e)
| valid_space_after e :
    valid_infix e -> valid_infix (e ++ [" "]).

(** ** Vocabulary of the further properties *)

(** [text[i : i + n]]. *)
Definition slice (text : str) (i n : nat) : str := firstn n (skipn i text).

(** The text with its spaces removed. *)
Definition without_spaces (text : str) : str :=
  filter (fun c => negb (Ascii.eqb c " ")) text.

(** An item ends before the next one begins. *)
Definition item_before (a b : str * nat) : Prop :=
  (snd a + List.length (fst a) <= snd b)%nat.

(** The data of the nodes below [n], in post-order and in in-order. *)
Fixpoint postorder (n : Node) : list str :=
  let 'mkNode data left right := n in
  match left with Some l => postorder l | None => [] end
  ++ match right with Some r => postorder r | None => [] end
  ++ [data].

Fixpoint inorder (n : Node) : list str :=
  let 'mkNode data left right := n in
  match left with Some l => inorder l | None => [] end
  ++ [data]
  ++ match right with Some r => inorder r | None => [] end.

(** What [from_infix] keeps of the symbols of a text, from left to right:
    every operator and, between two operators, before the first and after
    the last, the first symbol that is not a parenthesis. [need] tells
    whether that symbol is still to come. *)
Fixpoint first_operands (need : bool) (symbols : list str) : list str :=
  match symbols with
  | [] => []
  | s :: rest =>
      if list_contains OPERATORS s then s :: first_operands true rest
      else if need && negb (str_in s (lit "()")) then
        s :: first_operands false rest
      else first_operands need rest
  end.

(** An operator as the search of [from_infix] reads it: the index of the
    symbol, the rank of the operator in [OPERATORS], and the value of
    [brackets_level] when it is read. *)
Record reading : Type := mkReading {
  r_index : nat;
  r_rank : nat;
  r_level : Z
}.

(** The operators read by the search, from a given bracket level. *)
Fixpoint operator_readings (level : Z) (items : list (str * nat))
  : list reading :=
  match items with
  | [] => []
  | (symbol, i) :: rest =>
      if str_eqb symbol ["("] then operator_readings (level + 1) rest
      else if str_eqb symbol [")"] then operator_readings (level - 1) rest
      else match list_index OPERATORS symbol with
           | Some k => mkReading i k level :: operator_readings level rest
           | None => operator_readings level rest
           end
  end.

(** [r] does not take the place of [best] when it is read before it: it is
    at a deeper level, or at the same level with a rank that is not
    greater. *)
Definition yields_to_later (best r : reading) : Prop :=
  (r_level best < r_level r)%Z
  \/ (r_level best = r_level r /\ (r_rank r <= r_rank best)%nat).

(** [r] does not take the place of [best] when it is read after it: it is
    at a deeper level, or at the same level with a smaller rank. *)
Definition yields_to_earlier (best r : reading) : Prop :=
  (r_level best < r_level r)%Z
  \/ (r_level best = r_level r /\ (r_rank r < r_rank best)%nat).

(** What the search has recorded after the operators [seen]. *)
Definition records_lowest (seen : list reading) (st : scan) : Prop :=
  match lowest_operator_index st with
  | None =>
      seen = [] /\ lowest_operator st = (-1)%Z
      /\ lowest_operator_brackets_level st = (-1)%Z
  | Some i =>
      exists k before after,
        let best := mkReading i k (lowest_operator_brackets_level st) in
        seen = before ++ best :: after
        /\ lowest_operator st = Z.of_nat k
        /\ (0 <= lowest_operator_brackets_level st)%Z
        /\ Forall (yields_to_later best) before
        /\ Forall (yields_to_earlier best) after
  end.

(** ** The interactive loop *)

(** [main] reads lines from the standard input and writes to the standard
    output. The input still to be read is a list of lines, without their
    line ends; the output is the string written: [input(prompt)] writes the
    prompt and takes the next line, or raises [EOFError] when there is
    none; [print(s)] writes [s] and a line feed. *)
Inductive main_exn : Type :=
| Uncaught (e : exn)   (* raised by a builder, caught nowhere *)
| EOFError.            (* [input] at the end of the input *)

Definition newline : ascii := "010".

Definition print (s : str) : str := s ++ [newline].

(** The text written by one round that reads both lines. *)
Definition prompts : str :=
  lit "Do you want to input infix or postfix? (i/p): "
  ++ lit "Enter expression: ".

(** The two [print] calls that end [main]. *)
Definition print_tree (tree : BinaryExpressionTree) : str :=
  print (lit "Infix:   " ++ get_infix tree None)
  ++ print (lit "Postfix: " ++ get_postfix tree None).

(** The [while running] loop of [main]: the output written and the
    exception that ends the program, if any. A round with another selector
    than [i] and [p] sets [running] again and goes on with the next
    round. *)
Fixpoint main (stdin : list str) : str * option main_exn :=
  match stdin with
  | [] => (lit "Do you want to input infix or postfix? (i/p): ", Some EOFError)
  | notation :: stdin1 =>
      match stdin1 with
      | [] => (prompts, Some EOFError)
      | expression :: stdin2 =>
          if str_eqb notation (lit "i") then
            match from_infix expression with
            | Ok tree => (prompts ++ print_tree tree, None)
            | Raise e => (prompts, Some (Uncaught e))
            end
          else if str_eqb notation (lit "p") then
            match from_postfix expression with
            | Ok tree => (prompts ++ print_tree tree, None)
            | Raise e => (prompts, Some (Uncaught e))
            end
          else
            let (out, exit) := main stdin2 in
            (prompts ++ print (lit "You must input i or p.") ++ out, exit)
      end
  end.

(** * Properties *)

(** ** Strings and lists of strings *)

Lemma str_eqb_eq (a b : str) : str_eqb a b = true <-> a = b.
Proof.
  revert b; induction a as [|x a IH]; intros [|y b]; simpl;
    try (split; [discriminate | congruence]); [tauto |].
  rewrite andb_true_iff, Ascii.eqb_eq, IH.
  split; [intros [-> ->]; reflexivity | intros H; inversion H; auto].
Qed.

Lemma str_eqb_refl (a : str) : str_eqb a a = true.
Proof. apply str_eqb_eq; reflexivity. Qed.

Lemma str_eqb_neq (a b : str) : str_eqb a b = false <-> a <> b.
Proof.
  rewrite <- str_eqb_eq; destruct (str_eqb a b); split; congruence.
Qed.

Lemma list_contains_In (l : list str) (x : str) :
  list_contains l x = true <-> In x l.
Proof.
  unfold list_contains; rewrite existsb_exists; split.
  - intros (y & Hy & E); apply str_eqb_eq in E; subst; assumption.
  - intros H; exists x; split; [assumption | apply str_eqb_refl].
Qed.

(** The members of [OPERATORS], with their positions. *)
Lemma operators_cases (x : str) :
  list_contains OPERATORS x = true ->
  exists c k, x = [c] /\ list_index OPERATORS x = Some k /\ (k < 4)%nat
              /\ nth_error OPERATORS k = Some x
              /\ isnumeric c = false /\ c <> " " /\ c <> "(" /\ c <> ")".
Proof.
  rewrite list_contains_In; simpl.
  intros [<- | [<- | [<- | [<- | []]]]];
    [exists "/", 0%nat | exists "*", 1%nat | exists "+", 2%nat | exists "-", 3%nat];
    repeat split; try reflexivity; try lia; discriminate.
Qed.

Lemma list_getitem_operators (x : str) (k : nat) :
  nth_error OPERATORS k = Some x ->
  list_getitem OPERATORS (Z.of_nat k) = Ok x.
Proof.
  intros H.
  assert (k < 4)%nat as Hk
    by (apply (nth_error_Some OPERATORS k); rewrite H; discriminate).
  unfold list_getitem.
  change (Z.of_nat (List.length OPERATORS)) with 4%Z.
  destruct (Z.ltb_spec (Z.of_nat k) 0); [lia |].
  destruct (Z.ltb_spec (Z.of_nat k) 0); [lia |].
  destruct (Z.leb_spec 4 (Z.of_nat k)); [lia |].
  simpl; rewrite Nat2Z.id, H; reflexivity.
Qed.

(** ** The tokenizer *)

(** The plain mode yields the symbols of the indexed mode. *)
Lemma get_symbols_loop_plain (text : str) :
  forall i symbol symbol_index,
    get_symbols_loop false i symbol symbol_index text
    = map fst (get_symbols_loop true i symbol symbol_index text).
Proof.
  induction text as [|c text IH]; intros i symbol si; simpl.
  - unfold flush; destruct (nonempty symbol); reflexivity.
  - destruct (isnumeric c); [apply IH |].
    rewrite !map_app, <- IH; unfold flush.
    destruct (nonempty symbol), (negb (Ascii.eqb c " ")); reflexivity.
Qed.

Lemma get_symbols_plain (text : str) :
  get_symbols text false = map fst (get_symbols text true).
Proof. apply get_symbols_loop_plain. Qed.

(** Every yielded index is a position of the text. *)
Lemma get_symbols_loop_index (text : str) :
  forall i symbol symbol_index,
    (symbol_index + List.length symbol = i)%nat ->
    Forall (fun it : str * nat => (snd it < i + List.length text)%nat)
           (get_symbols_loop true i symbol symbol_index text).
Proof.
  induction text as [|c text IH]; intros i symbol si Hsi; simpl.
  - unfold flush; destruct symbol; simpl in *; constructor; simpl; [lia | constructor].
  - destruct (isnumeric c).
    + eapply Forall_impl; [| apply IH; rewrite length_app; simpl; lia].
      simpl; intros; lia.
    + apply Forall_app; split; [| apply Forall_app; split].
      * unfold flush; destruct symbol; simpl in *; constructor; simpl; [lia | constructor].
      * destruct (negb (Ascii.eqb c " ")); constructor; simpl; [lia | constructor].
      * eapply Forall_impl; [| apply IH; simpl; lia].
        simpl; intros; lia.
Qed.

Lemma get_symbols_loop_is_symbol (text : str) :
  forall i symbol symbol_index,
    forallb isnumeric symbol = true ->
    Forall is_symbol (get_symbols_loop false i symbol symbol_index text).
Proof.
  induction text as [|c text IH]; intros i symbol si Hnum; simpl.
  - unfold flush; destruct symbol; simpl; constructor; [| constructor].
    left; split; [discriminate | assumption].
  - destruct (isnumeric c) eqn:Hc.
    + apply IH; rewrite forallb_app, Hnum; simpl; rewrite Hc; reflexivity.
    + apply Forall_app; split; [| apply Forall_app; split].
      * unfold flush; destruct symbol; simpl; constructor; [| constructor].
        left; split; [discriminate | assumption].
      * destruct (Ascii.eqb_spec c " "); simpl; constructor; [| constructor].
        right; exists c; auto.
      * apply IH; reflexivity.
Qed.

Lemma get_symbols_is_symbol (text : str) :
  Forall is_symbol (get_symbols text false).
Proof. apply get_symbols_loop_is_symbol; reflexivity. Qed.

(** Tokenizing a concatenation, when the second part does not begin with
    a numeric character. *)
Lemma get_symbols_loop_app (indices : bool) (a b : str) :
  starts_clean b ->
  forall i symbol symbol_index,
    get_symbols_loop indices i symbol symbol_index (a ++ b)
    = get_symbols_loop indices i symbol symbol_index a
      ++ get_symbols_loop indices (i + List.length a) []
           (i + List.length a) b.
Proof.
  intros Hb; induction a as [|c a IH]; intros i symbol si; simpl.
  - rewrite Nat.add_0_r; destruct b as [|c b]; simpl.
    + rewrite app_nil_r; reflexivity.
    + simpl in Hb; rewrite Hb; reflexivity.
  - rewrite <- Nat.add_succ_comm.
    destruct (isnumeric c); [apply IH |].
    rewrite IH, <- !app_assoc; reflexivity.
Qed.

(** A run of numeric characters is one symbol. *)
Lemma get_symbols_loop_numeric (indices : bool) (run : str) :
  forallb isnumeric run = true ->
  forall i symbol symbol_index,
    get_symbols_loop indices i symbol symbol_index run
    = flush indices (symbol ++ run) symbol_index.
Proof.
  induction run as [|c run IH]; intros Hrun i symbol si; simpl in *.
  - rewrite app_nil_r; reflexivity.
  - apply andb_true_iff in Hrun as [Hc Hrun]; rewrite Hc, IH by assumption.
    rewrite <- app_assoc; reflexivity.
Qed.

(** ** The search for the lowest operator *)

(** A step either keeps the three variables of the lowest operator, or
    records the operator it reads. *)
Lemma scan_step_cases (st : scan) (symbol : str) (i : nat) :
  (lowest_operator (scan_step st (symbol, i)) = lowest_operator st
   /\ lowest_operator_index (scan_step st (symbol, i))
      = lowest_operator_index st
   /\ lowest_operator_brackets_level (scan_step st (symbol, i))
      = lowest_operator_brackets_level st)
  \/ (exists k, list_contains OPERATORS symbol = true
                /\ list_index OPERATORS symbol = Some k
                /\ scan_step st (symbol, i)
                   = mkScan (Z.of_nat k) (Some i) (brackets_level st)
                            (brackets_level st)).
Proof.
  unfold scan_step.
  destruct (str_eqb symbol ["("]); [left; auto |].
  destruct (str_eqb symbol [")"]); [left; auto |].
  destruct (_ || _); [| left; auto].
  destruct (list_contains OPERATORS symbol) eqn:Hop; [| left; auto].
  destruct (list_index OPERATORS symbol) as [k|] eqn:Hk; [| left; auto].
  destruct (_ || _); [| left; auto].
  right; exists k; auto.
Qed.

Lemma fold_scan_invariant (P : scan -> Prop) (items : list (str * nat)) :
  (forall st it, In it items -> P st -> P (scan_step st it)) ->
  forall st, P st -> P (fold_left scan_step items st).
Proof.
  induction items as [|it items IH]; intros Hstep st Hst; simpl; [assumption |].
  apply IH.
  - intros st' it' Hin; apply Hstep; right; assumption.
  - apply Hstep; [left; reflexivity | assumption].
Qed.

Lemma scan_text_found (text : str) :
  scan_found (get_symbols text true) (scan_text text).
Proof.
  unfold scan_text.
  apply (fold_scan_invariant (scan_found (get_symbols text true)));
    [| intros i; discriminate].
  intros st [symbol j] Hin Hst i.
  destruct (scan_step_cases st symbol j) as [(E1 & E2 & _) | (k & Hop & Hk & E)].
  - rewrite E1, E2; apply Hst.
  - rewrite E; simpl; intros [= <-]; exists k, symbol; auto.
Qed.

(** The recorded index is a position of the text. *)
Lemma scan_text_index (text : str) (i : nat) :
  lowest_operator_index (scan_text text) = Some i ->
  (i < List.length text)%nat.
Proof.
  intros H; destruct (scan_text_found text i H) as (k & op & _ & _ & _ & Hin).
  pose proof (get_symbols_loop_index text 0 [] 0 eq_refl) as Hall.
  rewrite Forall_forall in Hall; apply (Hall _ Hin).
Qed.

(** The recorded rank names an operator. *)
Lemma scan_text_operator (text : str) (i : nat) :
  lowest_operator_index (scan_text text) = Some i ->
  exists op, list_contains OPERATORS op = true
             /\ list_getitem OPERATORS (lowest_operator (scan_text text)) = Ok op.
Proof.
  intros H; destruct (scan_text_found text i H) as (k & op & E & Hk & Hop & _).
  exists op; split; [assumption |].
  destruct (operators_cases op Hop) as (c & k' & _ & Hk' & _ & Hnth & _).
  rewrite E; apply list_getitem_operators; congruence.
Qed.

Lemma fold_scan_keeps_index (items : list (str * nat)) :
  forall st, lowest_operator_index st <> None ->
             lowest_operator_index (fold_left scan_step items st) <> None.
Proof.
  apply (fold_scan_invariant (fun st => lowest_operator_index st <> None)).
  intros st [symbol j] _ Hst.
  destruct (scan_step_cases st symbol j) as [(_ & E & _) | (k & _ & _ & E)];
    rewrite E; [assumption | discriminate].
Qed.

Lemma scan_step_first_operator (st : scan) (symbol : str) (i : nat) :
  lowest_operator st = (-1)%Z ->
  lowest_operator_brackets_level st = (-1)%Z ->
  list_contains OPERATORS symbol = true ->
  lowest_operator_index (scan_step st (symbol, i)) = Some i.
Proof.
  intros Hlo Hlvl Hop.
  destruct (operators_cases symbol Hop)
    as (c & k & -> & Hk & _ & _ & _ & _ & Hl & Hr).
  unfold scan_step.
  destruct (str_eqb_neq [c] ["("]) as [_ ->]; [| congruence].
  destruct (str_eqb_neq [c] [")"]) as [_ ->]; [| congruence].
  rewrite Hop, Hk, Hlvl, Hlo; simpl.
  destruct (Z.leb_spec (-1) (Z.of_nat k)); [| lia].
  rewrite orb_true_r; reflexivity.
Qed.

(** When the search records nothing, no symbol is an operator. *)
Lemma fold_scan_none (items : list (str * nat)) :
  forall st,
    lowest_operator st = (-1)%Z ->
    lowest_operator_brackets_level st = (-1)%Z ->
    lowest_operator_index (fold_left scan_step items st) = None ->
    Forall (fun it => list_contains OPERATORS (fst it) = false) items.
Proof.
  induction items as [|[symbol j] items IH]; intros st Hlo Hlvl Hnone;
    [constructor |].
  change (fold_left scan_step ((symbol, j) :: items) st)
    with (fold_left scan_step items (scan_step st (symbol, j))) in Hnone.
  destruct (list_contains OPERATORS symbol) eqn:Hop.
  - exfalso; revert Hnone; apply fold_scan_keeps_index.
    rewrite scan_step_first_operator by assumption; discriminate.
  - constructor; [exact Hop |].
    destruct (scan_step_cases st symbol j) as [(E1 & _ & E3) | (k & Hop' & _)];
      [| congruence].
    apply (IH (scan_step st (symbol, j))); congruence.
Qed.

Lemma scan_text_none (text : str) :
  lowest_operator_index (scan_text text) = None ->
  Forall (fun symbol => list_contains OPERATORS symbol = false)
         (get_symbols text false).
Proof.
  intros H; rewrite get_symbols_plain, Forall_map.
  apply (fold_scan_none _ scan_init); auto.
Qed.

(** ** The recursion of the infix builder *)

Lemma from_infix_body_ext (f g : str -> result BinaryExpressionTree) (text : str) :
  (forall t, (List.length t < List.length text)%nat -> f t = g t) ->
  from_infix_body f text = from_infix_body g text.
Proof.
  intros Hfg; unfold from_infix_body.
  destruct (lowest_operator_index (scan_text text)) as [i|] eqn:Hi; [| reflexivity].
  apply scan_text_index in Hi.
  rewrite !Hfg; [reflexivity | |].
  - rewrite length_skipn; lia.
  - rewrite length_firstn; lia.
Qed.

Lemma from_infix_rec_depth (d : nat) :
  forall d' text,
    (List.length text < d)%nat -> (List.length text < d')%nat ->
    from_infix_rec d text = from_infix_rec d' text.
Proof.
  induction d as [|d IH]; intros [|d'] text Hd Hd'; try lia; simpl.
  apply from_infix_body_ext; intros t Ht; apply IH; lia.
Qed.

(** The equation of the recursive function. *)
Lemma from_infix_unfold (text : str) :
  from_infix text = from_infix_body from_infix text.
Proof.
  unfold from_infix at 1; simpl.
  apply from_infix_body_ext; intros t Ht.
  apply from_infix_rec_depth; lia.
Qed.

(** The recursion limit given to [from_infix_rec] is never reached. *)
Lemma from_infix_no_recursion_error (text : str) :
  from_infix text <> Raise RecursionError.
Proof.
  remember (List.length text) as n eqn:Hn.
  revert text Hn; induction n as [n IH] using lt_wf_ind; intros text ->.
  rewrite from_infix_unfold; unfold from_infix_body.
  destruct (lowest_operator_index (scan_text text)) as [i|] eqn:Hi.
  - destruct (scan_text_operator text i Hi) as (op & _ & ->).
    pose proof (scan_text_index text i Hi) as Hlt.
    pose proof (IH (List.length (firstn i text))
                  ltac:(rewrite length_firstn; lia) _ eq_refl) as Hl.
    pose proof (IH (List.length (skipn (i + 1) text))
                  ltac:(rewrite length_skipn; lia) _ eq_refl) as Hr.
    destruct (from_infix (firstn i text)) as [l|e]; simpl; [| congruence].
    destruct (from_infix (skipn (i + 1) text)) as [r|e]; simpl; congruence.
  - destruct (find _ _); discriminate.
Qed.

(** ** The shape of the trees *)

Lemma tree_of_impl (P Q : str -> Prop) (n : Node) :
  (forall s, P s -> Q s) -> tree_of P n -> tree_of Q n.
Proof. intros HPQ H; induction H; constructor; auto. Qed.

Lemma tree_of_reachable (P : str -> Prop) (n m : Node) :
  tree_of P n -> reachable n m -> tree_of P m.
Proof.
  intros Hn Hm; induction Hm as [| a b _ IH E | a b _ IH E]; [assumption | |];
    inversion IH; subst; simpl in E; congruence.
Qed.

Lemma tree_of_node_shape (n : Node) :
  tree_of is_operand n -> is_leaf n \/ is_internal n.
Proof.
  intros [s Hs | op l r Hop _ _]; [left | right]; unfold is_leaf, is_internal;
    simpl; eauto.
Qed.

Lemma postfix_step_shape (stack stack' : list Node) (symbol : str) :
  is_symbol symbol ->
  Forall (tree_of is_operand) stack ->
  postfix_step stack symbol = Ok stack' ->
  Forall (tree_of is_operand) stack'.
Proof.
  unfold postfix_step; intros Hsym Hstack.
  destruct (list_contains OPERATORS symbol) eqn:Hop.
  - destruct Hstack as [| r ? Hr [| l ? Hl Hrest]]; simpl; try discriminate.
    intros [= <-]; constructor; [constructor |]; assumption.
  - intros [= <-]; constructor; [constructor; split |]; assumption.
Qed.

Lemma postfix_loop_shape (symbols : list str) :
  Forall is_symbol symbols ->
  forall stack stack',
    Forall (tree_of is_operand) stack ->
    postfix_loop symbols stack = Ok stack' ->
    Forall (tree_of is_operand) stack'.
Proof.
  induction 1 as [|symbol symbols Hsym _ IH]; intros stack stack' Hstack;
    simpl; [intros [= <-]; assumption |].
  destruct (postfix_step stack symbol) as [stack1|e] eqn:Hstep; simpl;
    [| discriminate].
  apply IH; eapply postfix_step_shape; eassumption.
Qed.

Lemma from_postfix_shape (text : str) (t : BinaryExpressionTree) :
  from_postfix text = Ok t -> tree_of is_operand (root t).
Proof.
  unfold from_postfix.
  destruct (postfix_loop (get_symbols text false) []) as [stack|e] eqn:Hloop;
    simpl; [| discriminate].
  apply postfix_loop_shape in Hloop;
    [| apply get_symbols_is_symbol | constructor].
  destruct Hloop as [| top rest Htop _]; simpl; [discriminate |].
  intros [= <-]; assumption.
Qed.

Lemma from_infix_operand_tree (text : str) (t : BinaryExpressionTree) :
  from_infix text = Ok t -> tree_of operand (root t).
Proof.
  remember (List.length text) as n eqn:Hn.
  revert text t Hn; induction n as [n IH] using lt_wf_ind; intros text t ->.
  rewrite from_infix_unfold; unfold from_infix_body.
  destruct (lowest_operator_index (scan_text text)) as [i|] eqn:Hi.
  - destruct (scan_text_operator text i Hi) as (op & Hop & ->).
    pose proof (scan_text_index text i Hi) as Hlt.
    destruct (from_infix (firstn i text)) as [l|e] eqn:Hl; simpl;
      [| discriminate].
    destruct (from_infix (skipn (i + 1) text)) as [r|e] eqn:Hr; simpl;
      [| discriminate].
    intros [= <-]; simpl; constructor; [assumption | |].
    + apply (IH (List.length (firstn i text))
               ltac:(rewrite length_firstn; lia) _ _ eq_refl Hl).
    + apply (IH (List.length (skipn (i + 1) text))
               ltac:(rewrite length_skipn; lia) _ _ eq_refl Hr).
  - destruct (find _ _) as [symbol|] eqn:Hfind; [| discriminate].
    intros [= <-]; simpl; constructor.
    apply find_some in Hfind as [Hin Hparen].
    pose proof (get_symbols_is_symbol text) as Hsym.
    pose proof (scan_text_none text Hi) as Hnop.
    rewrite Forall_forall in Hsym, Hnop.
    repeat split; [apply Hsym | apply negb_true_iff | apply Hnop]; assumption.
Qed.

Lemma from_infix_shape (text : str) (t : BinaryExpressionTree) :
  from_infix text = Ok t -> tree_of is_operand (root t).
Proof.
  intros H; apply from_infix_operand_tree in H.
  revert H; apply tree_of_impl; intros s (Hsym & _ & Hs); split; assumption.
Qed.

(** ** Searching a rendered tree *)

Lemma scan_text_from (text : str) :
  scan_text text = scan_from 0 scan_init text.
Proof. reflexivity. Qed.

Lemma scan_from_nil (i : nat) (st : scan) : scan_from i st [] = st.
Proof. reflexivity. Qed.

Lemma scan_from_cons (i : nat) (st : scan) (c : ascii) (text : str) :
  isnumeric c = false ->
  scan_from i st (c :: text)
  = scan_from (S i)
      (if Ascii.eqb c " " then st else scan_step st ([c], i)) text.
Proof.
  intros Hc; unfold scan_from; simpl; rewrite Hc; simpl.
  destruct (Ascii.eqb c " "); reflexivity.
Qed.

Lemma scan_from_app (i : nat) (st : scan) (a b : str) :
  starts_clean b ->
  scan_from i st (a ++ b)
  = scan_from (i + List.length a) (scan_from i st a) b.
Proof.
  intros Hb; unfold scan_from.
  rewrite get_symbols_loop_app, fold_left_app by assumption; reflexivity.
Qed.

(** The symbol read from an operand of the tree. *)
Lemma operand_tokens (indices : bool) (s : str) (i : nat) :
  is_symbol s ->
  get_symbols_loop indices i [] i s = [yield indices s i].
Proof.
  intros [[Hne Hnum] | (c & -> & Hc & Hsp)].
  - rewrite get_symbols_loop_numeric by assumption.
    destruct s; [congruence | reflexivity].
  - simpl; rewrite Hc.
    destruct (Ascii.eqb_spec c " "); [congruence | reflexivity].
Qed.

Lemma operand_not_paren (s : str) :
  operand s -> str_eqb s ["("] = false /\ str_eqb s [")"] = false.
Proof.
  intros (_ & Hin & _).
  split; apply str_eqb_neq; intros ->; discriminate.
Qed.

Lemma scan_step_operand (st : scan) (s : str) (i : nat) :
  operand s -> scan_step st (s, i) = st.
Proof.
  intros Hs; destruct (operand_not_paren s Hs) as [Hl Hr].
  destruct Hs as (_ & _ & Hop); unfold scan_step.
  rewrite Hl, Hr, Hop; destruct (_ || _); reflexivity.
Qed.

Lemma scan_from_operand (i : nat) (st : scan) (s : str) :
  operand s -> scan_from i st s = st.
Proof.
  intros Hs; unfold scan_from.
  rewrite operand_tokens by apply Hs; simpl.
  apply scan_step_operand; assumption.
Qed.

Lemma scan_step_open (st : scan) (i : nat) :
  scan_step st (["("], i)
  = mkScan (lowest_operator st) (lowest_operator_index st)
           (brackets_level st + 1) (lowest_operator_brackets_level st).
Proof. reflexivity. Qed.

Lemma scan_step_close (st : scan) (i : nat) :
  scan_step st ([")"], i)
  = mkScan (lowest_operator st) (lowest_operator_index st)
           (brackets_level st - 1) (lowest_operator_brackets_level st).
Proof. reflexivity. Qed.

(** An operator below the level of the recorded one is passed over. *)
Lemma scan_step_deeper (st : scan) (op : str) (i : nat) :
  list_contains OPERATORS op = true ->
  lowest_operator_brackets_level st <> (-1)%Z ->
  (lowest_operator_brackets_level st < brackets_level st)%Z ->
  scan_step st (op, i) = st.
Proof.
  intros Hop Hne Hlt.
  destruct (operators_cases op Hop)
    as (c & k & -> & Hk & _ & _ & _ & _ & Hl & Hr).
  unfold scan_step.
  destruct (str_eqb_neq [c] ["("]) as [_ ->]; [| congruence].
  destruct (str_eqb_neq [c] [")"]) as [_ ->]; [| congruence].
  destruct (Z.eqb_spec (lowest_operator_brackets_level st) (-1)); [lia |].
  destruct (Z.leb_spec (brackets_level st) (lowest_operator_brackets_level st));
    [lia | reflexivity].
Qed.

(** The first operator read, or one at a level above the recorded one, is
    recorded. *)
Lemma scan_step_select (st : scan) (op : str) (k i : nat) :
  list_contains OPERATORS op = true ->
  list_index OPERATORS op = Some k ->
  (lowest_operator st = (-1)%Z /\ lowest_operator_brackets_level st = (-1)%Z)
  \/ (brackets_level st < lowest_operator_brackets_level st)%Z ->
  scan_step st (op, i)
  = mkScan (Z.of_nat k) (Some i) (brackets_level st) (brackets_level st).
Proof.
  intros Hop Hk Hst.
  destruct (operators_cases op Hop)
    as (c & k' & -> & _ & _ & _ & _ & _ & Hl & Hr).
  unfold scan_step.
  destruct (str_eqb_neq [c] ["("]) as [_ ->]; [| congruence].
  destruct (str_eqb_neq [c] [")"]) as [_ ->]; [| congruence].
  rewrite Hop, Hk.
  destruct Hst as [[Hlo Hlvl] | Hlt].
  - rewrite Hlvl, Hlo; simpl.
    destruct (Z.leb_spec (-1) (Z.of_nat k)); [| lia].
    rewrite orb_true_r; reflexivity.
  - destruct (Z.leb_spec (brackets_level st) (lowest_operator_brackets_level st));
      [| lia].
    destruct (Z.ltb_spec (brackets_level st) (lowest_operator_brackets_level st));
      [| lia].
    rewrite orb_true_r; reflexivity.
Qed.

(** The rendering of an internal node, character by character. *)
Lemma get_infix_from_node (op : str) (l r : Node) :
  get_infix_from (mkNode op (Some l) (Some r))
  = "(" :: get_infix_from l ++ " " :: op ++ " " :: get_infix_from r ++ [")"].
Proof.
  simpl; rewrite <- !app_assoc; reflexivity.
Qed.

Lemma get_infix_from_leaf (s : str) :
  get_infix_from (mkNode s None None) = s.
Proof. reflexivity. Qed.

(** A rendered tree read below the level of the recorded operator leaves
    the search as it was. *)
Lemma scan_from_skip (n : Node) :
  tree_of operand n ->
  forall i st,
    lowest_operator_brackets_level st <> (-1)%Z ->
    (lowest_operator_brackets_level st <= brackets_level st)%Z ->
    scan_from i st (get_infix_from n) = st.
Proof.
  induction 1 as [s Hs | op l r Hop Hl IHl Hr IHr]; intros i st Hne Hle.
  - rewrite get_infix_from_leaf; apply scan_from_operand; assumption.
  - rewrite get_infix_from_node.
    destruct (operators_cases op Hop)
      as (c & k & -> & Hk & _ & _ & Hc & Hsp & _ & _).
    rewrite scan_from_cons, scan_step_open by reflexivity.
    change (Ascii.eqb "(" " ") with false; cbv iota.
    rewrite scan_from_app by reflexivity.
    rewrite IHl by (simpl; lia).
    rewrite scan_from_cons by reflexivity.
    change (Ascii.eqb " " " ") with true; cbv iota.
    change ([c] ++ " " :: get_infix_from r ++ [")"])
      with (c :: " " :: get_infix_from r ++ [")"]).
    rewrite scan_from_cons by assumption.
    destruct (Ascii.eqb_spec c " ") as [|_]; [congruence |].
    rewrite scan_step_deeper by (simpl; auto; lia).
    rewrite scan_from_cons by reflexivity.
    change (Ascii.eqb " " " ") with true; cbv iota.
    rewrite scan_from_app by reflexivity.
    rewrite IHr by (simpl; lia).
    rewrite scan_from_cons, scan_step_close, scan_from_nil by reflexivity.
    change (Ascii.eqb ")" " ") with false; cbv iota.
    destruct st; simpl; f_equal; lia.
Qed.

Lemma selected_level (n : Node) (i : nat) (st : scan) :
  brackets_level (selected n i st) = brackets_level st.
Proof.
  destruct n as [op [l|] [r|]]; unfold selected; try reflexivity.
  destruct (list_index OPERATORS op); reflexivity.
Qed.

Lemma selected_cases (n : Node) (i : nat) (st : scan) :
  tree_of operand n ->
  lowest_operator st = (-1)%Z ->
  lowest_operator_brackets_level st = (-1)%Z ->
  (lowest_operator (selected n i st) = (-1)%Z
   /\ lowest_operator_brackets_level (selected n i st) = (-1)%Z)
  \/ lowest_operator_brackets_level (selected n i st)
     = (brackets_level st + 1)%Z.
Proof.
  intros [s Hs | op l r Hop _ _] Hlo Hlvl; unfold selected; [left; auto |].
  destruct (operators_cases op Hop) as (c & k & _ & -> & _).
  right; reflexivity.
Qed.

(** The operator at the root of a rendered tree is the one recorded. *)
Lemma scan_from_select (n : Node) :
  tree_of operand n ->
  forall i st,
    lowest_operator st = (-1)%Z ->
    lowest_operator_brackets_level st = (-1)%Z ->
    (0 <= brackets_level st)%Z ->
    scan_from i st (get_infix_from n) = selected n i st.
Proof.
  induction 1 as [s Hs | op l r Hop Hl IHl Hr IHr]; intros i st Hlo Hlvl Hpos.
  - rewrite get_infix_from_leaf; apply scan_from_operand; assumption.
  - rewrite get_infix_from_node.
    destruct (operators_cases op Hop)
      as (c & k & -> & Hk & _ & _ & Hc & Hsp & _ & _).
    rewrite scan_from_cons, scan_step_open by reflexivity.
    change (Ascii.eqb "(" " ") with false; cbv iota.
    rewrite scan_from_app by reflexivity.
    rewrite IHl by (simpl; auto; lia).
    rewrite scan_from_cons by reflexivity.
    change (Ascii.eqb " " " ") with true; cbv iota.
    change ([c] ++ " " :: get_infix_from r ++ [")"])
      with (c :: " " :: get_infix_from r ++ [")"]).
    rewrite scan_from_cons by assumption.
    destruct (Ascii.eqb_spec c " ") as [|_]; [congruence |].
    rewrite (scan_step_select _ [c] k); [| assumption | assumption |].
    2:{ rewrite selected_level.
        destruct (selected_cases l (S i)
                    (mkScan (lowest_operator st) (lowest_operator_index st)
                            (brackets_level st + 1)
                            (lowest_operator_brackets_level st)) Hl Hlo Hlvl)
          as [E | E]; [left; exact E | right; rewrite E; simpl; lia]. }
    rewrite selected_level.
    rewrite scan_from_cons by reflexivity.
    change (Ascii.eqb " " " ") with true; cbv iota.
    rewrite scan_from_app by reflexivity.
    rewrite (scan_from_skip r Hr) by (simpl; lia).
    rewrite scan_from_cons, scan_step_close, scan_from_nil by reflexivity.
    change (Ascii.eqb ")" " ") with false; cbv iota.
    unfold selected; rewrite Hk; simpl; f_equal; try lia.
    f_equal; lia.
Qed.

(** ** Building the rendering of a tree *)

Lemma closing_starts_clean (suf : str) : closing suf -> starts_clean suf.
Proof. intros H; destruct H as [| c s [-> | ->] _]; reflexivity. Qed.

Lemma scan_from_opening (pre : str) :
  opening pre ->
  forall i st rest,
    exists lvl,
      (brackets_level st <= lvl)%Z
      /\ scan_from i st (pre ++ rest)
         = scan_from (i + List.length pre)
             (mkScan (lowest_operator st) (lowest_operator_index st) lvl
                     (lowest_operator_brackets_level st)) rest.
Proof.
  induction 1 as [| c pre [-> | ->] _ IH]; intros i st rest.
  - exists (brackets_level st); split; [lia |].
    destruct st; simpl; rewrite Nat.add_0_r; reflexivity.
  - destruct (IH (S i) (scan_step st (["("], i)) rest) as (lvl & Hlvl & E).
    exists lvl; split; [simpl in Hlvl; lia |].
    simpl app; rewrite scan_from_cons by reflexivity.
    change (Ascii.eqb "(" " ") with false; cbv iota.
    rewrite E; simpl; rewrite Nat.add_succ_r; reflexivity.
  - destruct (IH (S i) st rest) as (lvl & Hlvl & E).
    exists lvl; split; [assumption |].
    simpl app; rewrite scan_from_cons by reflexivity.
    change (Ascii.eqb " " " ") with true; cbv iota.
    rewrite E; simpl; rewrite Nat.add_succ_r; reflexivity.
Qed.

Lemma scan_from_closing (suf : str) :
  closing suf ->
  forall i st,
    exists lvl,
      scan_from i st suf
      = mkScan (lowest_operator st) (lowest_operator_index st) lvl
               (lowest_operator_brackets_level st).
Proof.
  induction 1 as [| c suf [-> | ->] _ IH]; intros i st.
  - exists (brackets_level st); destruct st; reflexivity.
  - destruct (IH (S i) (scan_step st ([")"], i))) as (lvl & E).
    exists lvl; rewrite scan_from_cons by reflexivity.
    change (Ascii.eqb ")" " ") with false; cbv iota.
    rewrite E; reflexivity.
  - destruct (IH (S i) st) as (lvl & E).
    exists lvl; rewrite scan_from_cons by reflexivity.
    change (Ascii.eqb " " " ") with true; cbv iota.
    rewrite E; reflexivity.
Qed.

(** The symbols read from the opening part are parentheses. *)
Lemma get_symbols_opening (pre : str) :
  opening pre ->
  forall i rest,
    exists parens,
      Forall (fun s => s = ["("]) parens
      /\ get_symbols_loop false i [] i (pre ++ rest)
         = parens
           ++ get_symbols_loop false (i + List.length pre) []
                (i + List.length pre) rest.
Proof.
  induction 1 as [| c pre [-> | ->] _ IH]; intros i rest.
  - exists []; split; [constructor |].
    simpl; rewrite Nat.add_0_r; reflexivity.
  - destruct (IH (S i) rest) as (parens & Hparens & E).
    exists (["("] :: parens); split; [constructor; auto |].
    simpl; rewrite E, Nat.add_succ_r; reflexivity.
  - destruct (IH (S i) rest) as (parens & Hparens & E).
    exists parens; split; [assumption |].
    simpl; rewrite E, Nat.add_succ_r; reflexivity.
Qed.

Lemma find_skip {A : Type} (f : A -> bool) (l l' : list A) :
  Forall (fun x => f x = false) l -> find f (l ++ l') = find f l'.
Proof. induction 1 as [| x l Hx _ IH]; simpl; [| rewrite Hx]; auto. Qed.

Lemma split_at_operator (a : str) (c : ascii) (b : str) :
  firstn (List.length a) (a ++ c :: b) = a
  /\ skipn (List.length a + 1) (a ++ c :: b) = b.
Proof.
  split.
  - rewrite firstn_app, Nat.sub_diag, firstn_all; simpl.
    apply app_nil_r.
  - rewrite skipn_app, skipn_all2 by lia.
    replace (List.length a + 1 - List.length a)%nat with 1%nat by lia.
    reflexivity.
Qed.

(** A rendered tree, surrounded as in the halves of a split, is built back
    into the tree it renders. *)
Lemma from_infix_rendering (n : Node) :
  tree_of operand n ->
  forall pre suf,
    opening pre -> closing suf ->
    from_infix (pre ++ get_infix_from n ++ suf) = Ok (mkTree n).
Proof.
  induction 1 as [s Hs | op l r Hop Hl IHl Hr IHr]; intros pre suf Hpre Hsuf;
    rewrite from_infix_unfold; unfold from_infix_body; rewrite scan_text_from.
  - rewrite get_infix_from_leaf.
    destruct (scan_from_opening pre Hpre 0 scan_init (s ++ suf))
      as (lvl & Hlvl & ->).
    rewrite scan_from_app by (apply closing_starts_clean; assumption).
    rewrite (scan_from_operand _ _ s) by assumption.
    destruct (scan_from_closing suf Hsuf
                (0 + List.length pre + List.length s)
                (mkScan (lowest_operator scan_init)
                        (lowest_operator_index scan_init) lvl
                        (lowest_operator_brackets_level scan_init)))
      as (lvl' & ->).
    cbn [lowest_operator_index scan_init].
    unfold get_symbols.
    destruct (get_symbols_opening pre Hpre 0 (s ++ suf))
      as (parens & Hparens & ->).
    rewrite find_skip
      by (revert Hparens; apply Forall_impl; intros ? ->; reflexivity).
    rewrite get_symbols_loop_app by (apply closing_starts_clean; assumption).
    rewrite operand_tokens by apply Hs.
    destruct Hs as (_ & Hin & _).
    cbn [app find yield]; rewrite Hin; reflexivity.
  - rewrite get_infix_from_node.
    destruct (operators_cases op Hop)
      as (c & k & -> & Hk & _ & Hnth & Hc & Hsp & _ & _).
    destruct (scan_from_opening pre Hpre 0 scan_init
                (("(" :: get_infix_from l ++ " " :: [c] ++ " "
                      :: get_infix_from r ++ [")"]) ++ suf))
      as (lvl & Hlvl & ->).
    rewrite scan_from_app by (apply closing_starts_clean; assumption).
    rewrite <- get_infix_from_node.
    rewrite scan_from_select by (try constructor; simpl in *; auto).
    match goal with
    | |- context [scan_from ?i ?st suf] =>
        destruct (scan_from_closing suf Hsuf i st) as (lvl' & ->)
    end.
    unfold selected; rewrite Hk.
    cbn [lowest_operator_index lowest_operator].
    rewrite get_infix_from_node.
    replace (pre ++ ("(" :: get_infix_from l ++ " " :: [c] ++ " "
                         :: get_infix_from r ++ [")"]) ++ suf)
      with (((pre ++ ["("]) ++ get_infix_from l ++ [" "])
              ++ c :: ([" "] ++ get_infix_from r ++ ")" :: suf))
      by (simpl; repeat (rewrite <- !app_assoc; simpl); reflexivity).
    replace (0 + List.length pre + 1 + List.length (get_infix_from l) + 1)%nat
      with (List.length ((pre ++ ["("]) ++ get_infix_from l ++ [" "]))
      by (rewrite !length_app; simpl; lia).
    destruct (split_at_operator ((pre ++ ["("]) ++ get_infix_from l ++ [" "]) c
                ([" "] ++ get_infix_from r ++ ")" :: suf)) as [-> ->].
    rewrite IHl, IHr; simpl.
    + rewrite (list_getitem_operators [c] k Hnth); reflexivity.
    + constructor; [right; reflexivity | constructor].
    + constructor; [left; reflexivity | assumption].
    + apply Forall_app; split; [assumption |].
      constructor; [left; reflexivity | constructor].
    + constructor; [right; reflexivity | constructor].
Qed.

(** ** Texts accepted by the infix builder *)

Lemma operands_between_split (a : str) (c : ascii) (b : str) :
  list_contains OPERATORS [c] = true ->
  forall seen,
    operands_between seen (a ++ c :: b)
    = operands_between seen a && operands_between false b.
Proof.
  intros Hc; induction a as [|x a IH]; intros seen; simpl app.
  - cbn [app operands_between]; rewrite Hc; reflexivity.
  - cbn [operands_between]; destruct (list_contains OPERATORS [x]).
    + rewrite IH, andb_assoc; reflexivity.
    + apply IH.
Qed.

Lemma operands_between_no_operator (text : str) :
  (forall c, In c text -> list_contains OPERATORS [c] = false) ->
  forall seen,
    operands_between seen text = true ->
    seen = true \/ exists c, In c text /\ operand_char c = true.
Proof.
  induction text as [|x text IH]; intros Hno seen; cbn [operands_between];
    [auto |].
  rewrite (Hno x) by (left; reflexivity).
  intros H; apply IH in H; [| intros c Hc; apply Hno; right; assumption].
  destruct H as [H | (c & Hc & Hop)]; [| right; exists c; simpl; auto].
  apply orb_true_iff in H as [H | H]; [auto | right; exists x; simpl; auto].
Qed.

(** The characters of a substring are characters of the string. *)
Lemma startswith_chars (s prefix : str) :
  startswith s prefix = true -> forall c, In c prefix -> In c s.
Proof.
  revert s; induction prefix as [|p prefix IH]; intros [|x s]; simpl;
    try discriminate; try tauto.
  rewrite andb_true_iff, Ascii.eqb_eq; intros [-> H] c [-> | Hc]; auto.
Qed.

Lemma str_in_chars (needle haystack : str) :
  str_in needle haystack = true -> forall c, In c needle -> In c haystack.
Proof.
  induction haystack as [|x haystack IH]; intros H c Hc.
  - destruct needle; [destruct Hc | discriminate].
  - cbn [str_in] in H; apply orb_true_iff in H as [H | H];
      [apply (startswith_chars _ _ H c Hc) | right; apply IH; assumption].
Qed.

(** A pending number ends up in a symbol. *)
Lemma pending_in_symbol (text : str) :
  forall i symbol symbol_index,
    symbol <> [] ->
    exists s, In s (get_symbols_loop false i symbol symbol_index text)
              /\ forall c, In c symbol -> In c s.
Proof.
  induction text as [|x text IH]; intros i symbol si Hne; simpl.
  - exists symbol; destruct symbol; [congruence | simpl; auto].
  - destruct (isnumeric x).
    + destruct (IH (S i) (symbol ++ [x]) si) as (s & Hs & Hin);
        [destruct symbol; discriminate |].
      exists s; split; [assumption |].
      intros c Hc; apply Hin, in_or_app; auto.
    + exists symbol; split; [| auto].
      apply in_or_app; left; destruct symbol; [congruence | simpl; auto].
Qed.

(** Every character but the space ends up in a symbol. *)
Lemma char_in_symbol (c : ascii) (text : str) :
  c <> " " ->
  forall i symbol symbol_index,
    In c text ->
    exists s, In s (get_symbols_loop false i symbol symbol_index text)
              /\ In c s.
Proof.
  intros Hsp; induction text as [|x text IH]; intros i symbol si Hc;
    [destruct Hc |]; simpl.
  destruct (isnumeric x) eqn:Hx.
  - destruct Hc as [-> | Hc]; [| apply IH; assumption].
    destruct (pending_in_symbol text (S i) (symbol ++ [c]) si) as (s & Hs & Hin);
      [destruct symbol; discriminate |].
    exists s; split; [assumption | apply Hin, in_or_app; simpl; auto].
  - destruct Hc as [-> | Hc].
    + exists [c]; split; [| simpl; auto].
      apply in_or_app; right; apply in_or_app; left.
      destruct (Ascii.eqb_spec c " "); [congruence | simpl; auto].
    + destruct (IH (S i) [] (S i) Hc) as (s & Hs & Hin).
      exists s; split; [| assumption].
      apply in_or_app; right; apply in_or_app; right; assumption.
Qed.

(** A character that is neither numeric nor the space is a symbol. *)
Lemma char_is_symbol (c : ascii) (text : str) :
  isnumeric c = false -> c <> " " -> In c text ->
  In [c] (get_symbols text false).
Proof.
  intros Hnum Hsp Hc.
  destruct (char_in_symbol c text Hsp 0 [] 0 Hc) as (s & Hs & Hin).
  pose proof (get_symbols_is_symbol text) as Hsym.
  rewrite Forall_forall in Hsym.
  destruct (Hsym s Hs) as [[_ Hall] | (x & -> & _)].
  - rewrite forallb_forall in Hall; rewrite (Hall c Hin) in Hnum; discriminate.
  - destruct Hin as [-> | []]; assumption.
Qed.

(** The index of a one-character symbol is the position of the
    character. *)
Lemma single_symbol_position (c : ascii) (j : nat) (text : str) :
  isnumeric c = false ->
  forall i symbol symbol_index,
    forallb isnumeric symbol = true ->
    In ([c], j) (get_symbols_loop true i symbol symbol_index text) ->
    (i <= j)%nat /\ nth_error text (j - i) = Some c.
Proof.
  intros Hc; induction text as [|x text IH]; intros i symbol si Hnum; simpl.
  - unfold flush; destruct symbol as [|y symbol]; simpl; [tauto |].
    intros [[= -> ->] | []]; simpl in Hnum; rewrite Hc in Hnum; discriminate.
  - destruct (isnumeric x) eqn:Hx.
    + intros H; apply IH in H;
        [| rewrite forallb_app, Hnum; simpl; rewrite Hx; reflexivity].
      destruct H as [Hle H]; split; [lia |].
      replace (j - i)%nat with (S (j - S i)) by lia; assumption.
    + intros H; apply in_app_or in H as [H | H];
        [| apply in_app_or in H as [H | H]].
      * unfold flush in H; destruct symbol as [|y symbol]; simpl in H;
          [tauto |].
        destruct H as [[= -> ->] | []]; simpl in Hnum;
          rewrite Hc in Hnum; discriminate.
      * destruct (negb (Ascii.eqb x " ")); simpl in H; [| tauto].
        destruct H as [[= -> ->] | []]; split; [lia |].
        rewrite Nat.sub_diag; reflexivity.
      * apply IH in H; [| reflexivity].
        destruct H as [Hle H]; split; [lia |].
        replace (j - i)%nat with (S (j - S i)) by lia; assumption.
Qed.

(** The search records the position of an operator character. *)
Lemma scan_text_position (text : str) (i : nat) :
  lowest_operator_index (scan_text text) = Some i ->
  exists c, list_contains OPERATORS [c] = true
            /\ text = firstn i text ++ c :: skipn (i + 1) text.
Proof.
  intros H; destruct (scan_text_found text i H) as (k & op & _ & _ & Hop & Hin).
  destruct (operators_cases op Hop) as (c & _ & -> & _ & _ & _ & Hc & _).
  exists c; split; [assumption |].
  apply (single_symbol_position c i text Hc 0 [] 0 eq_refl) in Hin as [_ Hnth].
  rewrite Nat.sub_0_r in Hnth.
  apply nth_error_split in Hnth as (a & b & E & Hlen).
  subst i text.
  destruct (split_at_operator a c b) as [-> ->]; reflexivity.
Qed.

(** A text whose stretches between operators all hold an operand is
    built into a tree. *)
Lemma from_infix_accepts (text : str) :
  operands_between false text = true ->
  exists t, from_infix text = Ok t.
Proof.
  remember (List.length text) as n eqn:Hn.
  revert text Hn; induction n as [n IH] using lt_wf_ind; intros text -> Hok.
  rewrite from_infix_unfold; unfold from_infix_body.
  destruct (lowest_operator_index (scan_text text)) as [i|] eqn:Hi.
  - destruct (scan_text_operator text i Hi) as (op & _ & ->).
    pose proof (scan_text_index text i Hi) as Hlt.
    destruct (scan_text_position text i Hi) as (c & Hc & E).
    rewrite E, operands_between_split in Hok by assumption.
    apply andb_true_iff in Hok as [Hl Hr].
    destruct (IH (List.length (firstn i text))
                ltac:(rewrite length_firstn; lia) _ eq_refl Hl) as (l & ->).
    destruct (IH (List.length (skipn (i + 1) text))
                ltac:(rewrite length_skipn; lia) _ eq_refl Hr) as (r & ->).
    simpl; eauto.
  - pose proof (scan_text_none text Hi) as Hnop.
    rewrite Forall_forall in Hnop.
    destruct (operands_between_no_operator text) with (seen := false)
      as [? | (c & Hc & Hoc)]; [| assumption | discriminate |].
    { intros c Hc.
      destruct (list_contains OPERATORS [c]) eqn:Hop; [| reflexivity].
      rewrite <- Hop; apply Hnop.
      destruct (operators_cases [c] Hop)
        as (c' & _ & [= <-] & _ & _ & _ & Hnum & Hsp & _).
      apply char_is_symbol; assumption. }
    unfold operand_char in Hoc.
    apply andb_true_iff in Hoc as [Hoc Hr].
    apply andb_true_iff in Hoc as [Hsp Hl].
    apply negb_true_iff, Ascii.eqb_neq in Hsp, Hl, Hr.
    destruct (char_in_symbol c text Hsp 0 [] 0 Hc) as (s & Hs & Hin).
    destruct (find _ _) as [symbol|] eqn:Hfind; [eauto |].
    apply (find_none _ _ Hfind) in Hs.
    apply negb_false_iff in Hs.
    apply (str_in_chars _ _ Hs) in Hin.
    destruct Hin as [<- | [<- | []]]; congruence.
Qed.

(** ** Valid infix expressions *)

Lemma is_digit_operand_char (c : ascii) :
  is_digit c = true ->
  list_contains OPERATORS [c] = false /\ operand_char c = true.
Proof.
  destruct c as [b0 b1 b2 b3 b4 b5 b6 b7].
  destruct b0, b1, b2, b3, b4, b5, b6, b7; try discriminate;
    intros _; split; reflexivity.
Qed.

Lemma operands_between_snoc (text : str) (c : ascii) :
  list_contains OPERATORS [c] = false ->
  forall seen, operands_between seen text = true ->
               operands_between seen (text ++ [c]) = true.
Proof.
  intros Hc; induction text as [|x text IH]; intros seen;
    cbn [app operands_between].
  - intros ->; rewrite Hc; reflexivity.
  - destruct (list_contains OPERATORS [x]); [| apply IH].
    rewrite !andb_true_iff; intros [-> H]; auto.
Qed.

Lemma valid_infix_operands_between (e : str) :
  valid_infix e -> forall seen, operands_between seen e = true.
Proof.
  induction 1 as [ds Hne Hds | a op b _ IHa Hop _ IHb | e _ IH | e _ IH
                  | e _ IH]; intros seen.
  - destruct ds as [|d ds]; [congruence |].
    simpl in Hds; apply andb_true_iff in Hds as [Hd Hds].
    destruct (is_digit_operand_char d Hd) as [Hnop Hoc].
    cbn [operands_between]; rewrite Hnop, Hoc, orb_true_r.
    clear -Hds; induction ds as [|x ds IH]; [reflexivity |].
    simpl in Hds; apply andb_true_iff in Hds as [Hx Hds].
    destruct (is_digit_operand_char x Hx) as [Hnop _].
    cbn [operands_between]; rewrite Hnop; apply IH; assumption.
  - rewrite operands_between_split, IHa, IHb by assumption; reflexivity.
  - change (operands_between seen ("(" :: e ++ [")"]))
      with (operands_between (seen || false) (e ++ [")"])).
    apply operands_between_snoc; [reflexivity | apply IH].
  - change (operands_between seen (" " :: e))
      with (operands_between (seen || false) e); apply IH.
  - apply operands_between_snoc; [reflexivity | apply IH].
Qed.

Lemma from_infix_valid (e : str) :
  valid_infix e -> exists t, from_infix e = Ok t.
Proof.
  intros H; apply from_infix_accepts, valid_infix_operands_between, H.
Qed.

(** The normal form: a tree built by [from_infix] is built again from its
    own rendering. *)
Lemma from_infix_get_infix (text : str) (t : BinaryExpressionTree) :
  from_infix text = Ok t -> from_infix (get_infix t None) = Ok t.
Proof.
  intros H; apply from_infix_operand_tree in H.
  pose proof (from_infix_rendering (root t) H [] [] (Forall_nil _) (Forall_nil _))
    as E.
  rewrite app_nil_r in E; destruct t; exact E.
Qed.

(** The fallback of [from_infix]: an operand between opening parentheses
    and closing parentheses, in any numbers, is built into a leaf. *)
Lemma from_infix_fallback (s pre suf : str) :
  operand s -> opening pre -> closing suf ->
  from_infix (pre ++ s ++ suf) = Ok (mkTree (mkNode s None None)).
Proof.
  intros Hs; apply (from_infix_rendering (mkNode s None None)).
  constructor; assumption.
Qed.

Lemma postfix_loop_app (a b : list str) :
  forall stack,
    postfix_loop (a ++ b) stack
    = (stack' <- postfix_loop a stack ;; postfix_loop b stack').
Proof.
  induction a as [|symbol a IH]; intros stack; simpl; [reflexivity |].
  destruct (postfix_step stack symbol); simpl; auto.
Qed.

(** The space is never a symbol. *)
Lemma space_never_symbol (text : str) :
  ~ In [" "] (get_symbols text false).
Proof.
  intros H; pose proof (get_symbols_is_symbol text) as Hsym.
  rewrite Forall_forall in Hsym.
  destruct (Hsym _ H) as [[_ Hnum] | (c & [= <-] & _ & Hsp)];
    [discriminate | congruence].
Qed.

(** * The properties of the specification *)

(** C1, as the code has it: on ["8 - 3 - 2"] the search of [from_infix]
    records the rightmost [-], at offset 6, so that the text is split into
    ["8 - 3 "] and [" 2"], and [get_infix] of the tree built is
    ["((8 - 3) - 2)"]. *)
Theorem C1_rightmost_minus_left_nested :
  lowest_operator_index (scan_text (lit "8 - 3 - 2")) = Some 6%nat
  /\ firstn 6 (lit "8 - 3 - 2") = lit "8 - 3 "
  /\ nth_error (lit "8 - 3 - 2") 6 = Some "-"
  /\ skipn (6 + 1) (lit "8 - 3 - 2") = lit " 2"
  /\ exists t, from_infix (lit "8 - 3 - 2") = Ok t
               /\ get_infix t None = lit "((8 - 3) - 2)".
Proof.
  repeat split; try reflexivity.
  eexists; split; [vm_compute; reflexivity | reflexivity].
Qed.

(** C1, as stated, fails: the tree built from ["8 - 3 - 2"] is not rendered
    as ["(8 - (3 - 2))"]. *)
Lemma C1_not_right_nested :
  ~ (lowest_operator_index (scan_text (lit "8 - 3 - 2")) = Some 6%nat
     /\ exists t, from_infix (lit "8 - 3 - 2") = Ok t
                  /\ get_infix t None = lit "(8 - (3 - 2))").
Proof.
  intros (_ & t & Ht & Hr).
  vm_compute in Ht; injection Ht as <-.
  vm_compute in Hr; discriminate.
Qed.

(** C2, as the code has it: when the loop of [from_postfix] ends with more
    than one node on the stack, no exception is raised; the tree returned
    has the node on top of the stack as its root and the other nodes are
    dropped. *)
Theorem C2_top_of_stack_returned (text : str) (stack : list Node) :
  postfix_loop (get_symbols text false) [] = Ok stack ->
  (1 < List.length stack)%nat ->
  exists top rest,
    stack = top :: rest /\ from_postfix text = Ok (mkTree top).
Proof.
  intros Hloop Hlen; unfold from_postfix; rewrite Hloop.
  destruct stack as [|top rest]; [simpl in Hlen; lia |].
  exists top, rest; split; reflexivity.
Qed.

(** C2 on ["3 4"]: the loop ends with the leaves ["4"] and ["3"] on the
    stack, and the tree returned is the leaf ["4"]. *)
Lemma C2_top_of_stack_returned_witness :
  postfix_loop (get_symbols (lit "3 4") false) []
  = Ok [mkNode (lit "4") None None; mkNode (lit "3") None None]
  /\ exists top rest,
       [mkNode (lit "4") None None; mkNode (lit "3") None None] = top :: rest
       /\ from_postfix (lit "3 4") = Ok (mkTree top).
Proof.
  split; [reflexivity |].
  apply (C2_top_of_stack_returned (lit "3 4")); [reflexivity | simpl; lia].
Defined.

(** C2, as stated, fails: ["3 4"] leaves two nodes on the stack and
    [from_postfix] returns a tree, the leaf ["4"]. *)
Lemma C2_two_roots_no_error :
  exists stack,
    postfix_loop (get_symbols (lit "3 4") false) [] = Ok stack
    /\ (1 < List.length stack)%nat
    /\ from_postfix (lit "3 4") = Ok (mkTree (mkNode (lit "4") None None))
    /\ forall e, from_postfix (lit "3 4") <> Raise e.
Proof.
  exists [mkNode (lit "4") None None; mkNode (lit "3") None None].
  split; [reflexivity |]; split; [simpl; lia |]; split; [reflexivity |].
  intros e; discriminate.
Qed.

(** C3: when the loop of [from_postfix] reads an operator while fewer than
    two nodes are on the stack, [stack.pop()] raises [IndexError], which
    [from_postfix] does not catch: the call fails with that exception. *)
Theorem C3_operator_underflow
    (text : str) (before : list str) (op : str) (after : list str)
    (stack : list Node) :
  get_symbols text false = before ++ op :: after ->
  list_contains OPERATORS op = true ->
  postfix_loop before [] = Ok stack ->
  (List.length stack < 2)%nat ->
  from_postfix text = Raise IndexError.
Proof.
  intros Hsym Hop Hbefore Hlen.
  unfold from_postfix; rewrite Hsym, postfix_loop_app, Hbefore.
  cbn [bind postfix_loop]; unfold postfix_step; rewrite Hop.
  destruct stack as [|x [|y stack]]; [reflexivity | reflexivity |].
  simpl in Hlen; lia.
Qed.

(** C3 on ["+"]: the operator is read while the stack is empty. *)
Lemma C3_operator_underflow_witness :
  get_symbols (lit "+") false = [] ++ lit "+" :: []
  /\ list_contains OPERATORS (lit "+") = true
  /\ postfix_loop [] [] = Ok []
  /\ from_postfix (lit "+") = Raise IndexError.
Proof.
  do 3 (split; [reflexivity |]).
  apply (C3_operator_underflow (lit "+") [] (lit "+") [] []);
    [reflexivity | reflexivity | reflexivity | simpl; lia].
Defined.

(** C4: on ["2 + 3 * 4"] the search of [from_infix] records the [+], at
    offset 2, and [get_postfix] of the tree built is ["2 3 4 * +"]. *)
Theorem C4_split_on_plus :
  lowest_operator_index (scan_text (lit "2 + 3 * 4")) = Some 2%nat
  /\ nth_error (lit "2 + 3 * 4") 2 = Some "+"
  /\ exists t, from_infix (lit "2 + 3 * 4") = Ok t
               /\ get_postfix t None = lit "2 3 4 * +".
Proof.
  repeat split.
  eexists; split; [vm_compute; reflexivity | reflexivity].
Qed.

(** C5: on ["(2 + 3) * 4"] the [+] is read at bracket level 1 and recorded
    at that level; the [*], read at level 0, replaces it, so that the text
    is split at offset 8, and [get_postfix] of the tree built is
    ["2 3 + 4 *"]. *)
Theorem C5_split_on_times :
  scan_from 0 scan_init (lit "(2 + 3") = mkScan 2 (Some 3%nat) 1 1
  /\ nth_error (lit "(2 + 3) * 4") 3 = Some "+"
  /\ scan_text (lit "(2 + 3) * 4") = mkScan 1 (Some 8%nat) 0 0
  /\ nth_error (lit "(2 + 3) * 4") 8 = Some "*"
  /\ exists t, from_infix (lit "(2 + 3) * 4") = Ok t
               /\ get_postfix t None = lit "2 3 + 4 *".
Proof.
  repeat split.
  eexists; split; [vm_compute; reflexivity | reflexivity].
Qed.

(** C6: a valid infix expression [E] is built into a tree, the rendering of
    that tree is built into a tree again, and rendering this second tree
    gives the rendering of the first. *)
Theorem C6_render_build_idempotent (E : str) :
  valid_infix E ->
  exists t t',
    from_infix E = Ok t
    /\ from_infix (get_infix t None) = Ok t'
    /\ get_infix t' None = get_infix t None.
Proof.
  intros HE; destruct (from_infix_valid E HE) as (t & Ht).
  exists t, t; repeat split; [assumption |].
  apply (from_infix_get_infix E t Ht).
Qed.

(** C6 on ["(2 + 3) * 4"]. *)
Lemma C6_render_build_idempotent_witness :
  valid_infix (lit "(2 + 3) * 4")
  /\ exists t t',
       from_infix (lit "(2 + 3) * 4") = Ok t
       /\ from_infix (get_infix t None) = Ok t'
       /\ get_infix t' None = get_infix t None.
Proof.
  assert (valid_infix (lit "(2 + 3) * 4")) as HE.
  { apply (valid_binary (lit "(2 + 3) ") "*" (lit " 4")); [| reflexivity |].
    - apply (valid_space_after (lit "(2 + 3)")).
      apply (valid_parens (lit "2 + 3")).
      apply (valid_binary (lit "2 ") "+" (lit " 3")); [| reflexivity |].
      + apply (valid_space_after (lit "2")).
        apply valid_number; [discriminate | reflexivity].
      + apply (valid_space_before (lit "3")).
        apply valid_number; [discriminate | reflexivity].
    - apply (valid_space_before (lit "4")).
      apply valid_number; [discriminate | reflexivity]. }
  split; [exact HE | apply (C6_render_build_idempotent _ HE)].
Defined.

(** C7, at the failing input: a tab between two digits is whitespace for
    [str.isspace], and the tokenizer yields it as a symbol. *)
Theorem C7_tab_is_yielded :
  isspace "009" = true
  /\ get_symbols ["1"; "009"; "2"] false = [["1"]; ["009"]; ["2"]]
  /\ get_symbols ["1"; "009"; "2"] true
     = [(["1"], 0%nat); (["009"], 1%nat); (["2"], 2%nat)].
Proof. repeat split. Qed.

(** C8: in a tree returned by [from_postfix] or by [from_infix], every
    node reachable from the root is a leaf, with no child and an operand as
    data (a symbol that is not an operator), or an internal node, with both
    children and one of the four operators as data; none has exactly one
    child. *)
Theorem C8_leaf_or_internal
    (text : str) (t : BinaryExpressionTree) (n : Node) :
  from_postfix text = Ok t \/ from_infix text = Ok t ->
  reachable (root t) n ->
  (is_leaf n \/ is_internal n)
  /\ (left n = None <-> right n = None).
Proof.
  intros Hbuilt Hreach.
  assert (tree_of is_operand (root t)) as Ht
    by (destruct Hbuilt; [eapply from_postfix_shape | eapply from_infix_shape];
        eassumption).
  pose proof (tree_of_reachable _ _ _ Ht Hreach) as Hn.
  split; [apply tree_of_node_shape; assumption |].
  destruct Hn; simpl; split; congruence.
Qed.

(** C8 on the tree built from ["3 4 +"], at its right leaf. *)
Lemma C8_leaf_or_internal_witness :
  from_postfix (lit "3 4 +")
  = Ok (mkTree (mkNode (lit "+") (Some (mkNode (lit "3") None None))
                       (Some (mkNode (lit "4") None None))))
  /\ (is_leaf (mkNode (lit "4") None None)
      \/ is_internal (mkNode (lit "4") None None))
  /\ (left (mkNode (lit "4") None None) = None
      <-> right (mkNode (lit "4") None None) = None).
Proof.
  split; [reflexivity |].
  apply (C8_leaf_or_internal (lit "3 4 +")
           (mkTree (mkNode (lit "+") (Some (mkNode (lit "3") None None))
                           (Some (mkNode (lit "4") None None))))).
  - left; reflexivity.
  - eapply reach_right; [apply reach_root | reflexivity].
Defined.

(** C9: in indexed mode ["12 + 345"] yields the symbols ["12"], ["+"] and
    ["345"], in that order, with the offsets 0, 3 and 5. *)
Theorem C9_tokenize_indexed :
  get_symbols (lit "12 + 345") true
  = [(lit "12", 0%nat); (lit "+", 3%nat); (lit "345", 5%nat)].
Proof. reflexivity. Qed.

(** C10: ["(2 + 3"], whose parenthesis is never closed, is built without
    error into the tree built from ["(2 + 3)"]; its left half ["(2 "] has no
    operator and gives the leaf ["2"], the parenthesis being passed over. *)
Theorem C10_unbalanced_accepted :
  from_infix (lit "(2 + 3")
  = Ok (mkTree (mkNode (lit "+") (Some (mkNode (lit "2") None None))
                       (Some (mkNode (lit "3") None None))))
  /\ from_infix (lit "(2 + 3)") = from_infix (lit "(2 + 3")
  /\ lowest_operator_index (scan_text (lit "(2 ")) = None
  /\ from_infix (lit "(2 ") = Ok (mkTree (mkNode (lit "2") None None)).
Proof. repeat split. Qed.

(** * Further properties of the code *)

(** ** The tokenizer *)

Lemma get_symbols_loop_slice (text todo : str) :
  forall done pending i symbol_index,
    text = done ++ pending ++ todo ->
    List.length done = symbol_index ->
    (symbol_index + List.length pending)%nat = i ->
    Forall (fun it : str * nat =>
              slice text (snd it) (List.length (fst it)) = fst it)
           (get_symbols_loop true i pending symbol_index todo).
Proof.
  assert (forall (a b c : str), slice (a ++ b ++ c) (List.length a) (List.length b) = b)
    as Hslice.
  { intros a b c; unfold slice.
    rewrite skipn_app, Nat.sub_diag, skipn_all; simpl.
    rewrite firstn_app, Nat.sub_diag, firstn_all; simpl; apply app_nil_r. }
  induction todo as [|c todo IH]; intros done pending i si Htext Hdone Hi; simpl.
  - unfold flush; destruct (nonempty pending); constructor; [| constructor].
    simpl; subst text si; apply Hslice.
  - destruct (isnumeric c).
    + apply (IH done); [| assumption | rewrite length_app; simpl; lia].
      rewrite Htext, <- app_assoc; reflexivity.
    + apply Forall_app; split; [| apply Forall_app; split].
      * unfold flush; destruct (nonempty pending); constructor; [| constructor].
        simpl; subst text si; apply Hslice.
      * destruct (negb (Ascii.eqb c " ")); constructor; [| constructor].
        simpl; subst text i si.
        rewrite app_assoc, <- length_app.
        apply (Hslice (done ++ pending) [c] todo).
      * apply (IH (done ++ pending ++ [c]) []); simpl.
        -- rewrite Htext, <- !app_assoc; reflexivity.
        -- rewrite !length_app; simpl; lia.
        -- lia.
Qed.

(** X1: in indexed mode, every symbol is the piece of the text that begins
    at the index yielded with it. *)
Theorem get_symbols_index_slice (text symbol : str) (i : nat) :
  In (symbol, i) (get_symbols text true) ->
  slice text i (List.length symbol) = symbol.
Proof.
  intros Hin.
  pose proof (get_symbols_loop_slice text text [] [] 0 0 eq_refl eq_refl eq_refl)
    as Hall.
  rewrite Forall_forall in Hall; apply (Hall _ Hin).
Qed.

Lemma get_symbols_index_slice_witness :
  In (lit "345", 5%nat) (get_symbols (lit "12 + 345") true)
  /\ slice (lit "12 + 345") 5 (List.length (lit "345")) = lit "345".
Proof.
  assert (In (lit "345", 5%nat) (get_symbols (lit "12 + 345") true)) as Hin
    by (simpl; auto).
  split; [exact Hin | apply (get_symbols_index_slice _ _ _ Hin)].
Defined.

Lemma strongly_sorted_app {A : Type} (R : A -> A -> Prop) (a b : list A) :
  StronglySorted R a -> StronglySorted R b ->
  (forall x y, In x a -> In y b -> R x y) ->
  StronglySorted R (a ++ b).
Proof.
  induction 1 as [| x a Ha IH Hx]; intros Hb Hab; simpl; [assumption |].
  constructor.
  - apply IH; [assumption | intros; apply Hab; simpl; auto].
  - apply Forall_app; split; [assumption |].
    apply Forall_forall; intros y Hy; apply Hab; simpl; auto.
Qed.

Lemma get_symbols_loop_from (todo : str) :
  forall pending i symbol_index,
    (symbol_index + List.length pending)%nat = i ->
    Forall (fun it : str * nat => (symbol_index <= snd it)%nat)
           (get_symbols_loop true i pending symbol_index todo).
Proof.
  induction todo as [|c todo IH]; intros pending i si Hi; simpl.
  - unfold flush; destruct (nonempty pending); constructor; simpl; auto.
  - destruct (isnumeric c).
    + apply IH; rewrite length_app; simpl; lia.
    + apply Forall_app; split; [| apply Forall_app; split].
      * unfold flush; destruct (nonempty pending); constructor; simpl; auto.
      * destruct (negb (Ascii.eqb c " ")); constructor; simpl; auto; lia.
      * eapply Forall_impl; [| apply (IH [] (S i) (S i)); simpl; lia].
        simpl; intros; lia.
Qed.

Lemma get_symbols_loop_sorted (todo : str) :
  forall pending i symbol_index,
    (symbol_index + List.length pending)%nat = i ->
    StronglySorted item_before
      (get_symbols_loop true i pending symbol_index todo).
Proof.
  induction todo as [|c todo IH]; intros pending i si Hi; simpl.
  - unfold flush; destruct (nonempty pending); repeat constructor.
  - destruct (isnumeric c).
    + apply IH; rewrite length_app; simpl; lia.
    + pose proof (get_symbols_loop_from todo [] (S i) (S i) ltac:(simpl; lia))
        as Hfrom.
      rewrite Forall_forall in Hfrom.
      apply strongly_sorted_app; [| apply strongly_sorted_app |].
      * unfold flush; destruct (nonempty pending); repeat constructor.
      * destruct (negb (Ascii.eqb c " ")); repeat constructor.
      * apply IH; simpl; lia.
      * intros x y Hx Hy; apply Hfrom in Hy.
        destruct (negb (Ascii.eqb c " ")); [| destruct Hx].
        destruct Hx as [<- | []]; unfold item_before; simpl; lia.
      * intros x y Hx Hy.
        assert (i <= snd y)%nat as Hle.
        { apply in_app_or in Hy as [Hy | Hy].
          - destruct (negb (Ascii.eqb c " ")); [| destruct Hy].
            destruct Hy as [<- | []]; simpl; lia.
          - apply Hfrom in Hy; lia. }
        unfold flush in Hx; destruct (nonempty pending); [| destruct Hx].
        destruct Hx as [<- | []]; unfold item_before; simpl; lia.
Qed.

(** X2: in indexed mode, the symbols come in the order of the text and do
    not overlap: each one ends before any later one begins. *)
Theorem get_symbols_in_text_order (text : str) :
  StronglySorted item_before (get_symbols text true).
Proof. apply get_symbols_loop_sorted; reflexivity. Qed.

Lemma get_symbols_loop_concat (todo : str) :
  forall pending i symbol_index,
    forallb isnumeric pending = true ->
    List.concat (get_symbols_loop false i pending symbol_index todo : list str)
    = pending ++ without_spaces todo.
Proof.
  induction todo as [|c todo IH]; intros pending i si Hnum; simpl.
  - rewrite app_nil_r; destruct pending; simpl; [| rewrite app_nil_r];
      reflexivity.
  - destruct (isnumeric c) eqn:Hc.
    + rewrite IH by (rewrite forallb_app, Hnum; simpl; rewrite Hc; reflexivity).
      destruct (Ascii.eqb_spec c " ") as [-> | _]; [discriminate |].
      simpl; rewrite <- app_assoc; reflexivity.
    + rewrite !concat_app, IH by reflexivity.
      f_equal; [destruct pending; simpl; [| rewrite app_nil_r]; reflexivity |].
      destruct (Ascii.eqb c " "); reflexivity.
Qed.

(** X3: the symbols, put end to end, are the text without its spaces:
    the tokenizer drops the spaces of the text and nothing else. *)
Theorem get_symbols_concat (text : str) :
  List.concat (get_symbols text false : list str) = without_spaces text.
Proof. apply (get_symbols_loop_concat text [] 0 0); reflexivity. Qed.

(** ** The postfix builder *)

Lemma postfix_step_postorder (stack stack' : list Node) (symbol : str) :
  postfix_step stack symbol = Ok stack' ->
  List.concat (map postorder (rev stack'))
  = List.concat (map postorder (rev stack)) ++ [symbol].
Proof.
  unfold postfix_step; destruct (list_contains OPERATORS symbol).
  - destruct stack as [|r [|l stack]]; simpl; try discriminate.
    intros [= <-]; simpl.
    rewrite !map_app, !concat_app; simpl.
    rewrite !app_nil_r, <- !app_assoc; reflexivity.
  - intros [= <-]; simpl.
    rewrite map_app, concat_app; simpl; reflexivity.
Qed.

Lemma postfix_loop_postorder (symbols : list str) :
  forall stack stack',
    postfix_loop symbols stack = Ok stack' ->
    List.concat (map postorder (rev stack'))
    = List.concat (map postorder (rev stack)) ++ symbols.
Proof.
  induction symbols as [|symbol symbols IH]; intros stack stack'; simpl.
  - intros [= <-]; rewrite app_nil_r; reflexivity.
  - destruct (postfix_step stack symbol) as [stack1|e] eqn:Hstep; simpl;
      [| discriminate].
    intros H; rewrite (IH _ _ H), (postfix_step_postorder _ _ _ Hstep).
    rewrite <- app_assoc; reflexivity.
Qed.

(** X4: when [from_postfix] returns a tree, the symbols of the text are
    the data, in post-order, of the nodes left on the stack, from the
    bottom to the top; the tree returned is the top one, so its post-order
    ends the symbols of the text. *)
Theorem from_postfix_postorder (text : str) (t : BinaryExpressionTree) :
  from_postfix text = Ok t ->
  exists rest,
    postfix_loop (get_symbols text false) [] = Ok (root t :: rest)
    /\ get_symbols text false
       = List.concat (map postorder (rev rest)) ++ postorder (root t).
Proof.
  unfold from_postfix.
  destruct (postfix_loop (get_symbols text false) []) as [stack|e] eqn:Hloop;
    simpl; [| discriminate].
  destruct stack as [|top rest]; simpl; [discriminate |].
  intros [= <-]; exists rest; split; [reflexivity |].
  apply postfix_loop_postorder in Hloop; simpl in Hloop.
  rewrite map_app, concat_app in Hloop; simpl in Hloop.
  rewrite app_nil_r in Hloop; symmetry; exact Hloop.
Qed.

Lemma from_postfix_postorder_witness :
  from_postfix (lit "3 4 + 5")
  = Ok (mkTree (mkNode (lit "5") None None))
  /\ exists rest,
       postfix_loop (get_symbols (lit "3 4 + 5") false) []
       = Ok (root (mkTree (mkNode (lit "5") None None)) :: rest)
       /\ get_symbols (lit "3 4 + 5") false
          = List.concat (map postorder (rev rest))
            ++ postorder (root (mkTree (mkNode (lit "5") None None))).
Proof.
  split; [reflexivity |].
  apply (from_postfix_postorder (lit "3 4 + 5")); reflexivity.
Defined.

(** The symbols of a text do not depend on the offset from which its
    characters are numbered. *)
Lemma get_symbols_loop_offset (text : str) :
  forall i j pending si sj,
    get_symbols_loop false i pending si text
    = get_symbols_loop false j pending sj text.
Proof.
  induction text as [|c text IH]; intros i j pending si sj; simpl;
    [reflexivity |].
  destruct (isnumeric c); [apply IH |].
  rewrite (IH (S i) (S j) [] (S i) (S j)); reflexivity.
Qed.

Lemma get_symbols_app (a b : str) :
  starts_clean b ->
  get_symbols (a ++ b) false = get_symbols a false ++ get_symbols b false.
Proof.
  intros Hb; unfold get_symbols; rewrite get_symbols_loop_app by assumption.
  f_equal; apply get_symbols_loop_offset.
Qed.

Lemma get_symbols_cons (c : ascii) (text : str) :
  isnumeric c = false ->
  get_symbols (c :: text) false
  = (if Ascii.eqb c " " then [] else [[c]]) ++ get_symbols text false.
Proof.
  intros Hc; unfold get_symbols; simpl; rewrite Hc; simpl.
  rewrite (get_symbols_loop_offset text 1 0 [] 1 0).
  destruct (Ascii.eqb c " "); reflexivity.
Qed.

(** The rendering in postfix of an internal node, character by
    character. *)
Lemma get_postfix_from_node (op : str) (l r : Node) :
  get_postfix_from (mkNode op (Some l) (Some r))
  = get_postfix_from l ++ " " :: get_postfix_from r ++ " " :: op.
Proof. simpl; rewrite <- !app_assoc; reflexivity. Qed.

(** The symbols of a rendering in postfix are the data of the tree in
    post-order. *)
Lemma get_symbols_get_postfix (n : Node) :
  tree_of is_operand n ->
  get_symbols (get_postfix_from n) false = postorder n.
Proof.
  induction 1 as [s [Hs _] | op l r Hop _ IHl _ IHr].
  - apply (operand_tokens false s 0 Hs).
  - rewrite get_postfix_from_node.
    destruct (operators_cases op Hop) as (c & _ & -> & _ & _ & _ & Hc & Hsp & _).
    rewrite get_symbols_app, IHl by reflexivity.
    rewrite get_symbols_cons by reflexivity.
    rewrite get_symbols_app, IHr by reflexivity.
    rewrite get_symbols_cons by reflexivity.
    rewrite get_symbols_cons by assumption.
    destruct (Ascii.eqb_spec c " "); [congruence | reflexivity].
Qed.

Lemma postfix_loop_builds (n : Node) :
  tree_of is_operand n ->
  forall rest stack,
    postfix_loop (postorder n ++ rest) stack = postfix_loop rest (n :: stack).
Proof.
  induction 1 as [s [_ Hs] | op l r Hop _ IHl _ IHr]; intros rest stack.
  - simpl; unfold postfix_step; rewrite Hs; reflexivity.
  - cbn [postorder]; rewrite <- !app_assoc, IHl, IHr.
    simpl; unfold postfix_step; rewrite Hop; reflexivity.
Qed.

Lemma from_postfix_rendering (n : Node) :
  tree_of is_operand n ->
  from_postfix (get_postfix_from n) = Ok (mkTree n).
Proof.
  intros Hn; unfold from_postfix.
  rewrite (get_symbols_get_postfix n Hn).
  rewrite <- (app_nil_r (postorder n)), (postfix_loop_builds n Hn).
  reflexivity.
Qed.

(** X5: a tree returned by [from_postfix] is built again from its own
    rendering in postfix. *)
Theorem from_postfix_get_postfix (text : str) (t : BinaryExpressionTree) :
  from_postfix text = Ok t -> from_postfix (get_postfix t None) = Ok t.
Proof.
  intros H; apply from_postfix_shape in H; destruct t as [n].
  apply from_postfix_rendering; assumption.
Qed.

Lemma from_postfix_get_postfix_witness :
  from_postfix (lit "8 3  - 2 -")
  = Ok (mkTree
          (mkNode (lit "-")
             (Some (mkNode (lit "-") (Some (mkNode (lit "8") None None))
                           (Some (mkNode (lit "3") None None))))
             (Some (mkNode (lit "2") None None))))
  /\ from_postfix
       (get_postfix
          (mkTree
             (mkNode (lit "-")
                (Some (mkNode (lit "-") (Some (mkNode (lit "8") None None))
                              (Some (mkNode (lit "3") None None))))
                (Some (mkNode (lit "2") None None)))) None)
     = Ok (mkTree
             (mkNode (lit "-")
                (Some (mkNode (lit "-") (Some (mkNode (lit "8") None None))
                              (Some (mkNode (lit "3") None None))))
                (Some (mkNode (lit "2") None None)))).
Proof.
  split; [reflexivity |].
  apply (from_postfix_get_postfix (lit "8 3  - 2 -")); reflexivity.
Defined.

(** X6: a tree returned by [from_infix] is the tree that [from_postfix]
    builds from its rendering in postfix: converting infix to postfix and
    reading the postfix back gives the same tree. *)
Theorem from_infix_get_postfix (text : str) (t : BinaryExpressionTree) :
  from_infix text = Ok t -> from_postfix (get_postfix t None) = Ok t.
Proof.
  intros H; apply from_infix_shape in H; destruct t as [n].
  apply from_postfix_rendering; assumption.
Qed.

Lemma from_infix_get_postfix_witness :
  from_infix (lit "(2 + 3) * 4")
  = Ok (mkTree
          (mkNode (lit "*")
             (Some (mkNode (lit "+") (Some (mkNode (lit "2") None None))
                           (Some (mkNode (lit "3") None None))))
             (Some (mkNode (lit "4") None None))))
  /\ from_postfix
       (get_postfix
          (mkTree
             (mkNode (lit "*")
                (Some (mkNode (lit "+") (Some (mkNode (lit "2") None None))
                              (Some (mkNode (lit "3") None None))))
                (Some (mkNode (lit "4") None None)))) None)
     = Ok (mkTree
             (mkNode (lit "*")
                (Some (mkNode (lit "+") (Some (mkNode (lit "2") None None))
                              (Some (mkNode (lit "3") None None))))
                (Some (mkNode (lit "4") None None)))).
Proof.
  split; [reflexivity |].
  apply (from_infix_get_postfix (lit "(2 + 3) * 4")); reflexivity.
Defined.

(** The characters of a symbol are characters of the text. *)
Lemma symbol_chars_in_text (text symbol : str) (c : ascii) :
  In symbol (get_symbols text false) -> In c symbol -> In c text.
Proof.
  intros Hs Hc.
  assert (In c (List.concat (get_symbols text false : list str))) as H
    by (apply in_concat; exists symbol; auto).
  unfold get_symbols in H.
  rewrite (get_symbols_loop_concat text [] 0 0 eq_refl) in H.
  apply filter_In in H; tauto.
Qed.

Lemma postfix_loop_tree_of (P : str -> Prop) (symbols : list str) :
  Forall (fun s => list_contains OPERATORS s = false -> P s) symbols ->
  forall stack stack',
    Forall (tree_of P) stack ->
    postfix_loop symbols stack = Ok stack' ->
    Forall (tree_of P) stack'.
Proof.
  induction 1 as [|symbol symbols Hsym _ IH]; intros stack stack' Hstack;
    simpl; [intros [= <-]; assumption |].
  destruct (postfix_step stack symbol) as [stack1|e] eqn:Hstep; simpl;
    [| discriminate].
  apply IH; revert Hstep; unfold postfix_step.
  destruct (list_contains OPERATORS symbol) eqn:Hop.
  - destruct Hstack as [| r ? Hr [| l ? Hl Hrest]]; simpl; try discriminate.
    intros [= <-]; constructor; [constructor |]; assumption.
  - intros [= <-]; constructor; [constructor; auto | assumption].
Qed.

(** X7: when the text has no parenthesis, a tree returned by
    [from_postfix] is the tree that [from_infix] builds from its rendering
    in infix: converting postfix to infix and reading the infix back gives
    the same tree. *)
Theorem from_postfix_get_infix (text : str) (t : BinaryExpressionTree) :
  ~ In "(" text -> ~ In ")" text ->
  from_postfix text = Ok t -> from_infix (get_infix t None) = Ok t.
Proof.
  intros Hl Hr; unfold from_postfix.
  destruct (postfix_loop (get_symbols text false) []) as [stack|e] eqn:Hloop;
    simpl; [| discriminate].
  apply (postfix_loop_tree_of operand) in Hloop; [| | constructor].
  - destruct Hloop as [| top rest Htop _]; simpl; [discriminate |].
    intros [= <-].
    pose proof (from_infix_rendering top Htop [] [] (Forall_nil _) (Forall_nil _))
      as E.
    rewrite app_nil_r in E; exact E.
  - pose proof (get_symbols_is_symbol text) as Hsym.
    rewrite Forall_forall in Hsym |- *; intros s Hs Hop.
    repeat split; [apply Hsym; assumption | | assumption].
    destruct (str_in s (lit "()")) eqn:Hin; [exfalso | reflexivity].
    assert (exists c, In c s) as (c & Hc).
    { destruct (Hsym s Hs) as [[Hne _] | (c & -> & _)];
        [destruct s as [|c s]; [congruence |] |]; exists c; simpl; auto. }
    pose proof (symbol_chars_in_text text s c Hs Hc) as Htext.
    apply (str_in_chars _ _ Hin) in Hc.
    destruct Hc as [<- | [<- | []]]; contradiction.
Qed.

Lemma from_postfix_get_infix_witness :
  ~ In "(" (lit "8 3 - 2 /") /\ ~ In ")" (lit "8 3 - 2 /")
  /\ from_postfix (lit "8 3 - 2 /")
     = Ok (mkTree
             (mkNode (lit "/")
                (Some (mkNode (lit "-") (Some (mkNode (lit "8") None None))
                              (Some (mkNode (lit "3") None None))))
                (Some (mkNode (lit "2") None None))))
  /\ from_infix
       (get_infix
          (mkTree
             (mkNode (lit "/")
                (Some (mkNode (lit "-") (Some (mkNode (lit "8") None None))
                              (Some (mkNode (lit "3") None None))))
                (Some (mkNode (lit "2") None None)))) None)
     = Ok (mkTree
             (mkNode (lit "/")
                (Some (mkNode (lit "-") (Some (mkNode (lit "8") None None))
                              (Some (mkNode (lit "3") None None))))
                (Some (mkNode (lit "2") None None)))).
Proof.
  assert (~ In "(" (lit "8 3 - 2 /")) as Hl
    by (simpl; intros H; repeat destruct H as [H | H]; try discriminate H; exact H).
  assert (~ In ")" (lit "8 3 - 2 /")) as Hr
    by (simpl; intros H; repeat destruct H as [H | H]; try discriminate H; exact H).
  split; [exact Hl |]; split; [exact Hr |]; split; [reflexivity |].
  apply (from_postfix_get_infix (lit "8 3 - 2 /") _ Hl Hr); reflexivity.
Defined.

(** ** Texts without symbols *)

Lemma get_symbols_blank (text : str) :
  Forall (fun c => c = " ") text ->
  get_symbols text true = [] /\ get_symbols text false = [].
Proof.
  intros H; rewrite get_symbols_plain.
  assert (forall i, get_symbols_loop true i [] i text = []) as E.
  { induction H as [| c text -> _ IH]; intros i; simpl; [reflexivity | apply IH]. }
  unfold get_symbols; rewrite E; auto.
Qed.

(** X8: on a text made of spaces only, the empty text included, the
    tokenizer yields nothing, [from_postfix] raises [IndexError] (pop from
    the empty stack) and [from_infix] raises [TypeError] ([None + 1]). *)
Theorem blank_text_raises (text : str) :
  Forall (fun c => c = " ") text ->
  get_symbols text true = []
  /\ from_postfix text = Raise IndexError
  /\ from_infix text = Raise TypeError.
Proof.
  intros H; destruct (get_symbols_blank text H) as [Et Ef].
  split; [assumption |]; split.
  - unfold from_postfix; rewrite Ef; reflexivity.
  - rewrite from_infix_unfold; unfold from_infix_body, scan_text.
    rewrite Et, Ef; reflexivity.
Qed.

Lemma blank_text_raises_witness :
  Forall (fun c => c = " ") (lit "  ")
  /\ get_symbols (lit "  ") true = []
  /\ from_postfix (lit "  ") = Raise IndexError
  /\ from_infix (lit "  ") = Raise TypeError.
Proof.
  assert (Forall (fun c => c = " ") (lit "  ")) as H
    by (repeat constructor).
  split; [exact H | apply (blank_text_raises _ H)].
Defined.

(** ** The texts the infix builder accepts *)



Lemma scan_text_split (text : str) (i : nat) :
  lowest_operator_index (scan_text text) = Some i ->
  exists c, list_contains OPERATORS [c] = true
            /\ text = firstn i text ++ c :: skipn (i + 1) text
            /\ list_getitem OPERATORS (lowest_operator (scan_text text))
               = Ok [c].
Proof.
  intros H; destruct (scan_text_found text i H) as (k & op & E & Hk & Hop & Hin).
  destruct (operators_cases op Hop) as (c & k' & -> & Hk' & _ & Hnth & Hc & _).
  exists c; split; [assumption |]; split.
  - apply (single_symbol_position c i text Hc 0 [] 0 eq_refl) in Hin as [_ Hi].
    rewrite Nat.sub_0_r in Hi.
    apply nth_error_split in Hi as (a & b & Etext & Hlen).
    clear H E; subst i text.
    destruct (split_at_operator a c b) as [-> ->]; reflexivity.
  - rewrite E; apply list_getitem_operators; congruence.
Qed.



(** ** What the tree of the infix builder holds *)

Lemma first_operands_app (a b : list str) (op : str) :
  list_contains OPERATORS op = true ->
  forall need,
    first_operands need (a ++ op :: b)
    = first_operands need a ++ op :: first_operands true b.
Proof.
  intros Hop; induction a as [|s a IH]; intros need; cbn [app first_operands].
  - rewrite Hop; reflexivity.
  - destruct (list_contains OPERATORS s); [rewrite IH; reflexivity |].
    destruct (need && negb (str_in s (lit "()"))); rewrite IH; reflexivity.
Qed.

Lemma first_operands_done (symbols : list str) :
  Forall (fun s => list_contains OPERATORS s = false) symbols ->
  first_operands false symbols = [].
Proof.
  induction 1 as [|s symbols Hs _ IH]; cbn [first_operands]; [reflexivity |].
  rewrite Hs; exact IH.
Qed.

Lemma first_operands_leaf (symbols : list str) (s : str) :
  Forall (fun s => list_contains OPERATORS s = false) symbols ->
  find (fun symbol => negb (str_in symbol (lit "()"))) symbols = Some s ->
  first_operands true symbols = [s].
Proof.
  induction 1 as [|x symbols Hx Hrest IH]; cbn [find first_operands];
    [discriminate |].
  rewrite Hx; destruct (negb (str_in x (lit "()"))); cbn [andb].
  - intros [= ->]; rewrite first_operands_done by assumption; reflexivity.
  - exact IH.
Qed.

(** X10: the data of the tree returned by [from_infix], read in in-order,
    are the operators of the text, all of them, each one preceded and
    followed by the first symbol that is not a parenthesis in the stretch
    of text next to it; other symbols of that stretch are dropped. *)
Theorem from_infix_inorder (text : str) (t : BinaryExpressionTree) :
  from_infix text = Ok t ->
  inorder (root t) = first_operands true (get_symbols text false).
Proof.
  remember (List.length text) as n eqn:Hn.
  revert text t Hn; induction n as [n IH] using lt_wf_ind; intros text t ->.
  rewrite from_infix_unfold; unfold from_infix_body.
  destruct (lowest_operator_index (scan_text text)) as [i|] eqn:Hi.
  - pose proof (scan_text_index text i Hi) as Hlt.
    destruct (scan_text_split text i Hi) as (c & Hc & E & ->).
    destruct (from_infix (firstn i text)) as [l|e] eqn:Hl; simpl;
      [| discriminate].
    destruct (from_infix (skipn (i + 1) text)) as [r|e] eqn:Hr; simpl;
      [| discriminate].
    intros [= <-]; cbn [root inorder].
    apply (IH (List.length (firstn i text))
              ltac:(rewrite length_firstn; lia) _ _ eq_refl) in Hl.
    apply (IH (List.length (skipn (i + 1) text))
              ltac:(rewrite length_skipn; lia) _ _ eq_refl) in Hr.
    rewrite Hl, Hr.
    destruct (operators_cases [c] Hc)
      as (c' & _ & [= <-] & _ & _ & _ & Hnum & Hsp & _).
    replace (get_symbols text false)
      with (get_symbols (firstn i text ++ c :: skipn (i + 1) text) false)
      by (rewrite <- E; reflexivity).
    rewrite get_symbols_app, get_symbols_cons by assumption.
    destruct (Ascii.eqb_spec c " "); [congruence |].
    cbn [app]; rewrite first_operands_app by assumption; reflexivity.
  - destruct (find _ _) as [symbol|] eqn:Hfind; [| discriminate].
    intros [= <-]; cbn [root inorder app].
    symmetry; apply first_operands_leaf; [| assumption].
    apply scan_text_none; assumption.
Qed.

Lemma from_infix_inorder_witness :
  from_infix (lit "(1 2) + 30 40")
  = Ok (mkTree (mkNode (lit "+") (Some (mkNode (lit "1") None None))
                       (Some (mkNode (lit "30") None None))))
  /\ inorder (root (mkTree (mkNode (lit "+") (Some (mkNode (lit "1") None None))
                                   (Some (mkNode (lit "30") None None)))))
     = first_operands true (get_symbols (lit "(1 2) + 30 40") false).
Proof.
  split; [reflexivity |].
  apply (from_infix_inorder (lit "(1 2) + 30 40")); reflexivity.
Defined.

(** X11: the rendering in postfix of a tree returned by [from_infix] has
    no parenthesis. *)
Theorem from_infix_postfix_no_parenthesis
    (text : str) (t : BinaryExpressionTree) :
  from_infix text = Ok t ->
  ~ In "(" (get_postfix t None) /\ ~ In ")" (get_postfix t None).
Proof.
  intros H; apply from_infix_operand_tree in H.
  destruct t as [n]; unfold get_postfix; cbn [tree_root root] in *.
  assert (forall c, In c (get_postfix_from n) -> c <> "(" /\ c <> ")") as Hall.
  { induction H as [s (Hs & Hin & _) | op l r Hop _ IHl _ IHr]; intros c Hc.
    - simpl in Hc.
      split; intros Ec; subst c; destruct Hs as [[_ Hnum] | (x & -> & _)].
      + rewrite forallb_forall in Hnum; apply Hnum in Hc; discriminate.
      + destruct Hc as [E | []]; subst x; discriminate.
      + rewrite forallb_forall in Hnum; apply Hnum in Hc; discriminate.
      + destruct Hc as [E | []]; subst x; discriminate.
    - rewrite get_postfix_from_node in Hc.
      destruct (operators_cases op Hop) as (x & _ & -> & _ & _ & _ & _ & _ & Hl & Hr).
      apply in_app_or in Hc as [Hc | [<- | Hc]];
        [auto | split; discriminate |].
      apply in_app_or in Hc as [Hc | [<- | [<- | []]]];
        [auto | split; discriminate | auto]. }
  split; intros Hc; apply Hall in Hc; tauto.
Qed.

Lemma from_infix_postfix_no_parenthesis_witness :
  from_infix (lit "((2) + 3)")
  = Ok (mkTree (mkNode (lit "+") (Some (mkNode (lit "2") None None))
                       (Some (mkNode (lit "3") None None))))
  /\ ~ In "(" (get_postfix
                 (mkTree (mkNode (lit "+") (Some (mkNode (lit "2") None None))
                                 (Some (mkNode (lit "3") None None)))) None)
  /\ ~ In ")" (get_postfix
                 (mkTree (mkNode (lit "+") (Some (mkNode (lit "2") None None))
                                 (Some (mkNode (lit "3") None None)))) None).
Proof.
  split; [reflexivity |].
  apply (from_infix_postfix_no_parenthesis (lit "((2) + 3)")); reflexivity.
Defined.

(** ** The operator at which the infix builder splits *)

Lemma list_index_contains (l : list str) (x : str) :
  list_contains l x = false -> list_index l x = None.
Proof.
  unfold list_contains; induction l as [|y l IH]; simpl; [reflexivity |].
  intros H; apply orb_false_iff in H as [Hxy H].
  apply str_eqb_neq in Hxy.
  destruct (str_eqb y x) eqn:Hyx; [apply str_eqb_eq in Hyx; congruence |].
  rewrite IH by assumption; reflexivity.
Qed.

Lemma list_index_operator (x : str) (k : nat) :
  list_index OPERATORS x = Some k -> list_contains OPERATORS x = true.
Proof.
  intros H; destruct (list_contains OPERATORS x) eqn:E; [reflexivity |].
  rewrite (list_index_contains _ _ E) in H; discriminate.
Qed.

(** The step of the search on an operator. *)
Lemma scan_step_operator (st : scan) (op : str) (k i : nat) :
  list_index OPERATORS op = Some k ->
  scan_step st (op, i)
  = if ((lowest_operator_brackets_level st =? -1)%Z
        || (brackets_level st <=? lowest_operator_brackets_level st)%Z)
       && ((brackets_level st <? lowest_operator_brackets_level st)%Z
           || (lowest_operator st <=? Z.of_nat k)%Z)
    then mkScan (Z.of_nat k) (Some i) (brackets_level st) (brackets_level st)
    else st.
Proof.
  intros Hk; pose proof (list_index_operator op k Hk) as Hop.
  destruct (operators_cases op Hop)
    as (c & k' & -> & _ & _ & _ & _ & _ & Hl & Hr).
  unfold scan_step.
  destruct (str_eqb_neq [c] ["("]) as [_ ->]; [| congruence].
  destruct (str_eqb_neq [c] [")"]) as [_ ->]; [| congruence].
  rewrite Hop, Hk.
  destruct (_ || _); [destruct (_ || _) |]; reflexivity.
Qed.

Lemma scan_step_other (st : scan) (s : str) (i : nat) :
  str_eqb s ["("] = false -> str_eqb s [")"] = false ->
  list_index OPERATORS s = None ->
  scan_step st (s, i) = st.
Proof.
  intros Hl Hr Hk; unfold scan_step; rewrite Hl, Hr, Hk.
  destruct (_ || _); [destruct (list_contains OPERATORS s) |]; reflexivity.
Qed.

Lemma records_lowest_level (seen : list reading) (st : scan) (level : Z) :
  records_lowest seen st ->
  records_lowest seen
    (mkScan (lowest_operator st) (lowest_operator_index st) level
            (lowest_operator_brackets_level st)).
Proof. unfold records_lowest; simpl; auto. Qed.

Lemma records_lowest_step (seen : list reading) (st : scan) (op : str)
    (k i : nat) :
  list_index OPERATORS op = Some k ->
  (0 <= brackets_level st)%Z ->
  records_lowest seen st ->
  records_lowest (seen ++ [mkReading i k (brackets_level st)])
                 (scan_step st (op, i)).
Proof.
  intros Hk Hpos Hinv; rewrite (scan_step_operator st op k i Hk).
  unfold records_lowest in Hinv.
  destruct (lowest_operator_index st) as [i0|] eqn:Hi0.
  - destruct Hinv as (k0 & before & after & -> & Hlo & HL & Hbefore & Hafter).
    set (L0 := lowest_operator_brackets_level st) in *.
    set (lvl := brackets_level st) in *.
    destruct (Z.eqb_spec L0 (-1)); [lia |].
    destruct (Z.leb_spec lvl L0) as [Hle | Hgt]; cbn [orb andb].
    + destruct (Z.ltb_spec lvl L0) as [Hlt | Hge]; cbn [orb].
      * (* a level above the recorded one *)
        unfold records_lowest; cbn [lowest_operator_index]; cbv zeta.
        exists k, (before ++ mkReading i0 k0 L0 :: after), [].
        cbn [lowest_operator lowest_operator_brackets_level].
        repeat split; [lia | | constructor].
        apply Forall_app; split; [| constructor].
        -- revert Hbefore; apply Forall_impl; intros r [H | [H _]];
             left; simpl in *; lia.
        -- left; simpl; lia.
        -- revert Hafter; apply Forall_impl; intros r [H | [H _]];
             left; simpl in *; lia.
      * (* the level of the recorded one *)
        assert (lvl = L0) as Elvl by lia.
        rewrite Hlo.
        destruct (Z.leb_spec (Z.of_nat k0) (Z.of_nat k)) as [Hk0 | Hk0].
        -- unfold records_lowest; cbn [lowest_operator_index]; cbv zeta.
           exists k, (before ++ mkReading i0 k0 L0 :: after), [].
           cbn [lowest_operator lowest_operator_brackets_level].
           repeat split; [lia | | constructor].
           apply Forall_app; split; [| constructor].
           ++ revert Hbefore; apply Forall_impl; intros r [H | [H Hr]];
                [left | right]; simpl in *; lia.
           ++ right; simpl; lia.
           ++ revert Hafter; apply Forall_impl; intros r [H | [H Hr]];
                [left | right]; simpl in *; lia.
        -- unfold records_lowest; rewrite Hi0; cbv zeta.
           exists k0, before, (after ++ [mkReading i k lvl]).
           fold L0; rewrite <- app_assoc; repeat split; auto.
           apply Forall_app; split; [assumption |].
           constructor; [right; simpl; lia | constructor].
    + (* a level below the recorded one *)
      unfold records_lowest; rewrite Hi0; cbv zeta.
      exists k0, before, (after ++ [mkReading i k lvl]).
      fold L0; rewrite <- app_assoc; repeat split; auto.
      apply Forall_app; split; [assumption |].
      constructor; [left; simpl; lia | constructor].
  - destruct Hinv as (-> & Hlo & HL); rewrite HL, Hlo.
    cbn [Z.eqb orb andb].
    destruct (Z.ltb_spec (brackets_level st) (-1)); [lia |].
    destruct (Z.leb_spec (-1) (Z.of_nat k)); [| lia].
    unfold records_lowest; cbn [orb lowest_operator_index]; cbv zeta.
    exists k, [], [].
    cbn [lowest_operator lowest_operator_brackets_level app].
    repeat split; auto.
Qed.

Lemma fold_scan_records_lowest (items : list (str * nat)) :
  forall st seen,
    records_lowest seen st ->
    Forall (fun r => (0 <= r_level r)%Z)
           (operator_readings (brackets_level st) items) ->
    records_lowest (seen ++ operator_readings (brackets_level st) items)
                   (fold_left scan_step items st).
Proof.
  induction items as [|[s i] items IH]; intros st seen Hinv Hpos;
    cbn [fold_left operator_readings] in *.
  - rewrite app_nil_r; assumption.
  - destruct (str_eqb s ["("]) eqn:Hl.
    { apply str_eqb_eq in Hl; subst s; rewrite scan_step_open.
      apply (IH (mkScan _ _ _ _)); [apply records_lowest_level |]; assumption. }
    destruct (str_eqb s [")"]) eqn:Hr.
    { apply str_eqb_eq in Hr; subst s; rewrite scan_step_close.
      apply (IH (mkScan _ _ _ _)); [apply records_lowest_level |]; assumption. }
    destruct (list_index OPERATORS s) as [k|] eqn:Hk.
    + inversion Hpos as [| r rs Hhead Htail]; subst; simpl in Hhead.
      pose proof (records_lowest_step seen st s k i Hk Hhead Hinv) as Hstep.
      assert (brackets_level (scan_step st (s, i)) = brackets_level st) as Elvl.
      { rewrite (scan_step_operator st s k i Hk).
        destruct (_ && _); reflexivity. }
      specialize (IH (scan_step st (s, i)) _ Hstep).
      rewrite Elvl, <- app_assoc in IH; apply IH; assumption.
    + rewrite (scan_step_other st s i Hl Hr Hk); apply IH; assumption.
Qed.

(** X12: when no operator of the text is read at a negative bracket level,
    the first loop of [from_infix] records nothing if the text has no
    operator; otherwise it records the index, the rank and the level of an
    operator such that every operator read before it is at a deeper level,
    or at the same level with a rank not greater, and every operator read
    after it is at a deeper level, or at the same level with a smaller
    rank. The split is at the lowest bracket level, there at the operator
    latest in [OPERATORS], and there at the last occurrence. *)
Theorem scan_text_records_lowest (text : str) :
  Forall (fun r => (0 <= r_level r)%Z)
         (operator_readings 0 (get_symbols text true)) ->
  records_lowest (operator_readings 0 (get_symbols text true))
                 (scan_text text).
Proof.
  intros Hpos.
  apply (fold_scan_records_lowest (get_symbols text true) scan_init []);
    [repeat split | exact Hpos].
Qed.

Lemma scan_text_records_lowest_witness :
  Forall (fun r => (0 <= r_level r)%Z)
         (operator_readings 0 (get_symbols (lit "8 / (3 - 1) - 2 + 4") true))
  /\ records_lowest
       (operator_readings 0 (get_symbols (lit "8 / (3 - 1) - 2 + 4") true))
       (scan_text (lit "8 / (3 - 1) - 2 + 4")).
Proof.
  assert (Forall (fun r => (0 <= r_level r)%Z)
            (operator_readings 0
               (get_symbols (lit "8 / (3 - 1) - 2 + 4") true))) as Hpos
    by (repeat constructor; simpl; lia).
  split; [exact Hpos | apply (scan_text_records_lowest _ Hpos)].
Defined.

(** The search over a text without parentheses and without [-], once a
    [-] is recorded at level 0, records nothing else. *)
Lemma fold_scan_after_minus (items : list (str * nat)) (i : nat) :
  Forall (fun it => fst it <> ["("] /\ fst it <> [")"] /\ fst it <> ["-"])
         items ->
  fold_left scan_step items (mkScan 3 (Some i) 0 0) = mkScan 3 (Some i) 0 0.
Proof.
  induction 1 as [|[s j] items (Hl & Hr & Hm) _ IH]; cbn [fold_left];
    [reflexivity |].
  replace (scan_step (mkScan 3 (Some i) 0 0) (s, j))
    with (mkScan 3 (Some i) 0 0); [exact IH |].
  simpl in Hl, Hr, Hm; symmetry.
  destruct (list_index OPERATORS s) as [k|] eqn:Hk.
  - rewrite (scan_step_operator _ s k j Hk); simpl.
    destruct (operators_cases s (list_index_operator s k Hk))
      as (c & k' & -> & Hk' & Hlt & Hnth & _).
    assert (k' = k) as -> by congruence.
    destruct k as [|[|[|[|k]]]]; try reflexivity; [| lia].
    simpl in Hnth; congruence.
  - apply scan_step_other; [apply str_eqb_neq .. |]; assumption.
Qed.

(** The search over a text without parentheses stays at level 0. *)
Lemma fold_scan_flat (items : list (str * nat)) :
  Forall (fun it => fst it <> ["("] /\ fst it <> [")"]) items ->
  forall st,
    brackets_level st = 0%Z ->
    (lowest_operator st <= 3)%Z ->
    lowest_operator_brackets_level st = (-1)%Z
    \/ lowest_operator_brackets_level st = 0%Z ->
    let st' := fold_left scan_step items st in
    brackets_level st' = 0%Z
    /\ (lowest_operator st' <= 3)%Z
    /\ (lowest_operator_brackets_level st' = (-1)%Z
        \/ lowest_operator_brackets_level st' = 0%Z).
Proof.
  induction 1 as [|[s j] items (Hl & Hr) _ IH]; intros st Hlvl Hlo HL;
    cbn [fold_left]; [auto |].
  simpl in Hl, Hr; apply IH.
  - destruct (list_index OPERATORS s) as [k|] eqn:Hk.
    + rewrite (scan_step_operator _ s k j Hk).
      destruct (_ && _); simpl; assumption.
    + rewrite scan_step_other; [| apply str_eqb_neq .. |]; assumption.
  - destruct (list_index OPERATORS s) as [k|] eqn:Hk.
    + rewrite (scan_step_operator _ s k j Hk).
      destruct (operators_cases s (list_index_operator s k Hk))
        as (c & k' & -> & Hk' & Hlt & _).
      destruct (_ && _); simpl; [| assumption].
      assert (k' = k) as -> by congruence; lia.
    + rewrite scan_step_other; [| apply str_eqb_neq .. |]; assumption.
  - destruct (list_index OPERATORS s) as [k|] eqn:Hk.
    + rewrite (scan_step_operator _ s k j Hk).
      destruct (_ && _); simpl; [right |]; assumption.
    + rewrite scan_step_other; [| apply str_eqb_neq .. |]; assumption.
Qed.

(** The symbols of a text that lacks a character are not that
    character. *)
Lemma items_without_char (c : ascii) (text : str) (i : nat) :
  ~ In c text ->
  Forall (fun it : str * nat => fst it <> [c])
         (get_symbols_loop true i [] i text).
Proof.
  intros Hc; apply Forall_forall; intros [s j] Hin E; simpl in E; subst s.
  apply Hc, (symbol_chars_in_text text [c] c); [| simpl; auto].
  unfold get_symbols.
  rewrite (get_symbols_loop_offset text 0 i [] 0 i), get_symbols_loop_plain.
  apply (in_map fst _ _ Hin).
Qed.

Lemma scan_text_last_minus (a b : str) :
  ~ In "(" (a ++ b) -> ~ In ")" (a ++ b) -> ~ In "-" b ->
  scan_text (a ++ "-" :: b) = mkScan 3 (Some (List.length a)) 0 0.
Proof.
  intros Hl Hr Hm.
  rewrite scan_text_from, scan_from_app, scan_from_cons by reflexivity.
  change (Ascii.eqb "-" " ") with false; cbv iota.
  assert (forall c, ~ In c (a ++ b) -> ~ In c a /\ ~ In c b) as Hsplit
    by (intros c H; split; intros Hc; apply H, in_or_app; auto).
  destruct (Hsplit _ Hl) as [Hla Hlb], (Hsplit _ Hr) as [Hra Hrb].
  destruct (fold_scan_flat (get_symbols_loop true 0 [] 0 a)) with (st := scan_init)
    as (Hlvl & Hlo & HL); [| reflexivity | simpl; lia | left; reflexivity |].
  { pose proof (items_without_char "(" a 0 Hla) as H1.
    pose proof (items_without_char ")" a 0 Hra) as H2.
    rewrite Forall_forall in H1, H2 |- *; auto. }
  fold (scan_from 0 scan_init a) in Hlvl, Hlo, HL.
  rewrite (scan_step_operator _ ["-"] 3 _ eq_refl), Hlvl.
  replace (_ && _) with true.
  - unfold scan_from at 1; simpl Z.of_nat; simpl Nat.add.
    apply fold_scan_after_minus.
    pose proof (items_without_char "(" b (S (List.length a)) Hlb) as H1.
    pose proof (items_without_char ")" b (S (List.length a)) Hrb) as H2.
    pose proof (items_without_char "-" b (S (List.length a)) Hm) as H3.
    rewrite Forall_forall in H1, H2, H3 |- *; auto.
  - symmetry; apply andb_true_iff; split.
    + destruct HL as [-> | ->]; reflexivity.
    + apply orb_true_iff; right; apply Z.leb_le; simpl; lia.
Qed.

(** X13: in a text without parentheses, the last [-] is the root of the
    tree: what precedes it is built into the left subtree and what follows
    it, with any [+], [*] or [/], into the right subtree. *)
Theorem from_infix_last_minus (a b : str) :
  ~ In "(" (a ++ b) -> ~ In ")" (a ++ b) -> ~ In "-" b ->
  from_infix (a ++ "-" :: b)
  = (l <- from_infix a ;;
     r <- from_infix b ;;
     Ok (mkTree (mkNode ["-"] (Some (root l)) (Some (root r))))).
Proof.
  intros Hl Hr Hm.
  rewrite from_infix_unfold; unfold from_infix_body.
  rewrite (scan_text_last_minus a b Hl Hr Hm).
  cbn [lowest_operator_index lowest_operator].
  destruct (split_at_operator a "-" b) as [-> ->].
  destruct (from_infix a); [| reflexivity].
  destruct (from_infix b); reflexivity.
Qed.

Lemma from_infix_last_minus_witness :
  ~ In "(" (lit "1 " ++ lit " 2 + 3") /\ ~ In ")" (lit "1 " ++ lit " 2 + 3")
  /\ ~ In "-" (lit " 2 + 3")
  /\ from_infix (lit "1 - 2 + 3")
     = Ok (mkTree
             (mkNode (lit "-") (Some (mkNode (lit "1") None None))
                (Some (mkNode (lit "+") (Some (mkNode (lit "2") None None))
                              (Some (mkNode (lit "3") None None)))))).
Proof.
  assert (~ In "(" (lit "1 " ++ lit " 2 + 3")) as Hl
    by (simpl; intros H; repeat destruct H as [H | H]; try discriminate H; exact H).
  assert (~ In ")" (lit "1 " ++ lit " 2 + 3")) as Hr
    by (simpl; intros H; repeat destruct H as [H | H]; try discriminate H; exact H).
  assert (~ In "-" (lit " 2 + 3")) as Hm
    by (simpl; intros H; repeat destruct H as [H | H]; try discriminate H; exact H).
  split; [exact Hl |]; split; [exact Hr |]; split; [exact Hm |].
  change (lit "1 - 2 + 3") with (lit "1 " ++ "-" :: lit " 2 + 3").
  rewrite (from_infix_last_minus (lit "1 ") (lit " 2 + 3") Hl Hr Hm).
  reflexivity.
Defined.

(** ** Round trips through the renderings *)

(** X14: a tree returned by [from_infix], on any text, is built again from
    its own rendering in infix. *)
Theorem from_infix_normal_form (text : str) (t : BinaryExpressionTree) :
  from_infix text = Ok t -> from_infix (get_infix t None) = Ok t.
Proof. apply from_infix_get_infix. Qed.

Lemma from_infix_normal_form_witness :
  from_infix (lit "8 - (3) - 2)")
  = Ok (mkTree
          (mkNode (lit "-")
             (Some (mkNode (lit "-") (Some (mkNode (lit "8") None None))
                           (Some (mkNode (lit "3") None None))))
             (Some (mkNode (lit "2") None None))))
  /\ from_infix
       (get_infix
          (mkTree
             (mkNode (lit "-")
                (Some (mkNode (lit "-") (Some (mkNode (lit "8") None None))
                              (Some (mkNode (lit "3") None None))))
                (Some (mkNode (lit "2") None None)))) None)
     = Ok (mkTree
             (mkNode (lit "-")
                (Some (mkNode (lit "-") (Some (mkNode (lit "8") None None))
                              (Some (mkNode (lit "3") None None))))
                (Some (mkNode (lit "2") None None)))).
Proof.
  split; [reflexivity |].
  apply (from_infix_normal_form (lit "8 - (3) - 2)")); reflexivity.
Defined.

(** X15: an operand between opening parentheses and closing parentheses,
    in any numbers and mixed with spaces, is built by [from_infix] into the
    leaf that holds the operand: the parentheses are passed over without
    being counted. *)
Theorem from_infix_operand_in_parentheses (s pre suf : str) :
  operand s -> opening pre -> closing suf ->
  from_infix (pre ++ s ++ suf) = Ok (mkTree (mkNode s None None)).
Proof. apply from_infix_fallback. Qed.

Lemma from_infix_operand_in_parentheses_witness :
  operand (lit "42") /\ opening (lit "( (") /\ closing (lit ")")
  /\ from_infix (lit "( (" ++ lit "42" ++ lit ")")
     = Ok (mkTree (mkNode (lit "42") None None)).
Proof.
  assert (operand (lit "42")) as Hs
    by (repeat split; left; split; [discriminate | reflexivity]).
  assert (opening (lit "( (")) as Hpre
    by (repeat constructor; auto).
  assert (closing (lit ")")) as Hsuf
    by (repeat constructor; auto).
  split; [exact Hs |]; split; [exact Hpre |]; split; [exact Hsuf |].
  apply (from_infix_operand_in_parentheses _ _ _ Hs Hpre Hsuf).
Defined.

(** X16: when the loop of [from_postfix] ends with one node on the stack,
    the rendering in postfix of the tree returned has the symbols of the
    text, in the same order: only the spacing can differ. *)
Theorem from_postfix_same_symbols (text : str) (t : BinaryExpressionTree) :
  postfix_loop (get_symbols text false) [] = Ok [root t] ->
  from_postfix text = Ok t
  /\ get_symbols (get_postfix t None) false = get_symbols text false.
Proof.
  intros Hloop.
  assert (from_postfix text = Ok t) as Ht
    by (unfold from_postfix; rewrite Hloop; destruct t; reflexivity).
  split; [exact Ht |].
  change (get_postfix t None) with (get_postfix_from (root t)).
  rewrite (get_symbols_get_postfix _ (from_postfix_shape _ _ Ht)).
  apply postfix_loop_postorder in Hloop; simpl in Hloop.
  rewrite app_nil_r in Hloop; exact Hloop.
Qed.

Lemma from_postfix_same_symbols_witness :
  postfix_loop (get_symbols (lit " 12  3 4+ *") false) []
  = Ok [root (mkTree
                (mkNode (lit "*") (Some (mkNode (lit "12") None None))
                   (Some (mkNode (lit "+") (Some (mkNode (lit "3") None None))
                                 (Some (mkNode (lit "4") None None))))))]
  /\ get_symbols (lit "12 3 4 + *") false
     = get_symbols (lit " 12  3 4+ *") false.
Proof.
  split; [reflexivity |].
  apply (from_postfix_same_symbols (lit " 12  3 4+ *")
           (mkTree
              (mkNode (lit "*") (Some (mkNode (lit "12") None None))
                 (Some (mkNode (lit "+") (Some (mkNode (lit "3") None None))
                               (Some (mkNode (lit "4") None None))))))).
  reflexivity.
Defined.

(** ** The two modes of the tokenizer *)

(** X17: the plain mode yields the symbols of the indexed mode, in the
    same order. *)
Theorem get_symbols_modes_agree (text : str) :
  get_symbols text false = map fst (get_symbols text true).
Proof. apply get_symbols_plain. Qed.

(** X18: every symbol yielded is a non-empty run of numeric characters or
    one character that is neither numeric nor the space; in particular no
    symbol is empty and no symbol mixes a number with another
    character. *)
Theorem get_symbols_shape (text s : str) :
  In s (get_symbols text false) -> is_symbol s.
Proof.
  intros H; pose proof (get_symbols_is_symbol text) as Hall.
  rewrite Forall_forall in Hall; apply Hall, H.
Qed.

Lemma get_symbols_shape_witness :
  In (lit "345") (get_symbols (lit "12 + 345") false)
  /\ is_symbol (lit "345").
Proof.
  assert (In (lit "345") (get_symbols (lit "12 + 345") false)) as H
    by (simpl; auto).
  split; [exact H | apply (get_symbols_shape _ _ H)].
Defined.

(** ** The interactive loop *)

(** X19: for an infix expression that [from_infix] accepts, the program
    writes the same output whether it is given the expression with the
    selector [i], the infix line it prints for it with the selector [i], or
    the postfix line it prints for it with the selector [p]; in the three
    cases it ends without an exception. *)
Theorem main_output_stable
    (expression : str) (tree : BinaryExpressionTree) (rest : list str) :
  from_infix expression = Ok tree ->
  main (lit "i" :: expression :: rest) = (prompts ++ print_tree tree, None)
  /\ main (lit "i" :: get_infix tree None :: rest)
     = (prompts ++ print_tree tree, None)
  /\ main (lit "p" :: get_postfix tree None :: rest)
     = (prompts ++ print_tree tree, None).
Proof.
  intros H.
  pose proof (from_infix_get_infix _ _ H) as Hi.
  pose proof (from_infix_shape _ _ H) as Hshape.
  assert (from_postfix (get_postfix tree None) = Ok tree) as Hp
    by (destruct tree as [n]; apply from_postfix_rendering; assumption).
  cbn [main]; change (str_eqb (lit "i") (lit "i")) with true.
  change (str_eqb (lit "p") (lit "i")) with false.
  change (str_eqb (lit "p") (lit "p")) with true.
  cbv iota; rewrite H, Hi, Hp; auto.
Qed.

Lemma main_output_stable_witness :
  from_infix (lit "2+3 * 4")
  = Ok (mkTree
          (mkNode (lit "+") (Some (mkNode (lit "2") None None))
             (Some (mkNode (lit "*") (Some (mkNode (lit "3") None None))
                           (Some (mkNode (lit "4") None None))))))
  /\ main [lit "i"; lit "2+3 * 4"]
     = (prompts ++ print (lit "Infix:   (2 + (3 * 4))")
                ++ print (lit "Postfix: 2 3 4 * +"), None)
  /\ main [lit "i"; lit "(2 + (3 * 4))"]
     = (prompts ++ print (lit "Infix:   (2 + (3 * 4))")
                ++ print (lit "Postfix: 2 3 4 * +"), None)
  /\ main [lit "p"; lit "2 3 4 * +"]
     = (prompts ++ print (lit "Infix:   (2 + (3 * 4))")
                ++ print (lit "Postfix: 2 3 4 * +"), None).
Proof.
  split; [reflexivity |].
  apply (main_output_stable (lit "2+3 * 4")
           (mkTree
              (mkNode (lit "+") (Some (mkNode (lit "2") None None))
                 (Some (mkNode (lit "*") (Some (mkNode (lit "3") None None))
                               (Some (mkNode (lit "4") None None))))))
           []).
  reflexivity.
Defined.

(** X20: rounds whose selector is neither [i] nor [p] run no builder:
    each one reads its two lines, writes the two prompts and the line
    [You must input i or p.], and the program goes on with the rest of the
    input, whatever the expressions of those rounds are. *)
Theorem main_skips_other_selectors
    (rounds : list (str * str)) (rest : list str) :
  Forall (fun round => fst round <> lit "i" /\ fst round <> lit "p") rounds ->
  main (flat_map (fun round => [fst round; snd round]) rounds ++ rest)
  = (flat_map (fun _ => prompts ++ print (lit "You must input i or p."))
              rounds
     ++ fst (main rest),
     snd (main rest)).
Proof.
  induction 1 as [|[notation expression] rounds [Hi Hp] _ IH].
  - simpl; destruct (main rest); reflexivity.
  - cbn [flat_map app fst snd] in *.
    cbn [main]; rewrite IH.
    destruct (str_eqb_neq notation (lit "i")) as [_ ->]; [| assumption].
    destruct (str_eqb_neq notation (lit "p")) as [_ ->]; [| assumption].
    rewrite <- !app_assoc; reflexivity.
Qed.

Lemma main_skips_other_selectors_witness :
  Forall (fun round => fst round <> lit "i" /\ fst round <> lit "p")
         [(lit "x", lit "+"); (lit "I", lit "")]
  /\ main ([lit "x"; lit "+"; lit "I"; lit ""] ++ [lit "p"; lit "3 4 +"])
     = (flat_map (fun _ => prompts ++ print (lit "You must input i or p."))
                 [(lit "x", lit "+"); (lit "I", lit "")]
        ++ fst (main [lit "p"; lit "3 4 +"]),
        snd (main [lit "p"; lit "3 4 +"])).
Proof.
  assert (Forall (fun round => fst round <> lit "i" /\ fst round <> lit "p")
            [(lit "x", lit "+"); (lit "I", lit "")]) as H
    by (repeat constructor; discriminate).
  split; [exact H |].
  apply (main_skips_other_selectors _ [lit "p"; lit "3 4 +"] H).
Defined.


